(** * Bulk URL processing: the job table, its per-job worker and the sweeper

    A shallow embedding of [src/bulk_processor.py] (class [BulkProcessor]).

    Python dictionaries are objects with identity: [self.jobs] maps a job id to
    a _reference_ to the job dictionary, and the worker thread, the table and
    every caller of [get_job_status] may hold the same reference.  The model
    therefore keeps an explicit object store ([heap]) beside the table
    ([jobs]).

    The external calls of the worker ([diagnose_site],
    [generate_technical_observation], [urlparse], [os.makedirs], [open] /
    [json.dump]) and the clock are answered by an oracle.  A call either returns
    or raises an instance of [Exception] whose [str()] is the recorded message.
    Strings are byte strings; progress messages printed by the worker are left
    out, the one message printed by the sweeper is kept. *)

From stdpp Require Import gmap strings list fin_maps pretty relations.
From Stdlib Require Import Ascii QArith.

Local Open Scope string_scope.
Local Open Scope list_scope.
Local Open Scope nat_scope.

(** ** Results of calls that may raise *)

Inductive res (A : Type) : Type :=
| Ok (a : A)
| Raise (msg : string).
Arguments Ok {A} a.
Arguments Raise {A} msg.

Global Instance res_ret : MRet res := λ A a, Ok a.
Global Instance res_bind : MBind res := λ A B k m,
  match m with
  | Ok a => k a
  | Raise msg => Raise msg
  end.

(** [try: m except Exception as e: h (str e)] *)
Definition try_except {A} (m : res A) (h : string → A) : A :=
  match m with
  | Ok a => a
  | Raise msg => h msg
  end.

(** ** Python values stored in a diagnosis dictionary *)

#[warnings="-register-all"]
Inductive pyval : Type :=
| PyNone
| PyBool (b : bool)
| PyInt (n : Z)
| PyStr (s : string)
| PyList (l : list pyval).

(** Truth value of an object, as tested by [if x:] and [and]. *)
Definition truthy (v : pyval) : bool :=
  match v with
  | PyNone => false
  | PyBool b => b
  | PyInt n => negb (n =? 0)%Z
  | PyStr s => negb (String.eqb s "")
  | PyList l => match l with [] => false | _ => true end
  end.

(** The dictionary returned by [diagnose_site]. *)
Abbreviation Diagnosis := (gmap string pyval).

(** [d.get(key, False)] *)
Definition dict_get_or_False (d : Diagnosis) (key : string) : pyval :=
  default (PyBool false) (d !! key).

(** ** The job record *)

(** The strings ['queued'], ['processing'] and ['completed'] held by
    [job['status']]. *)
Inductive Status : Type := Queued | Processing | Completed.

Global Instance Status_eq_dec : EqDecision Status.
Proof. solve_decision. Defined.

(** An element of [job['results']]. *)
Inductive Outcome : Type :=
| success (url : string) (result : Diagnosis)
| error (url : string) (error_msg : string).

(** An element of [job['errors']]. *)
Record ErrorEntry : Type := mkErrorEntry {
  error_url : string;
  error_text : string
}.

(** Timestamps ([datetime.now()]) are counted in microseconds. *)
Abbreviation timestamp := Z (only parsing).

Record Job : Type := mkJob {
  job_id : string;
  urls : list string;
  total : nat;
  completed : nat;
  successful : nat;
  failed : nat;
  current_url : option string;
  status : Status;
  results : list Outcome;
  errors : list ErrorEntry;
  started_at : timestamp;
  completed_at : option timestamp;
  generate_observations : bool
}.

(** ** The processor: the table and the objects it refers to *)

Abbreviation loc := positive (only parsing).

Record BulkProcessor : Type := mkBulkProcessor {
  heap : gmap loc Job;      (* the job dictionaries, by identity *)
  jobs : gmap string loc    (* [self.jobs] *)
}.

(** [BulkProcessor.__init__] *)
Definition init : BulkProcessor := {| heap := ∅; jobs := ∅ |}.

(** In-place update of the dictionary at [l]. *)
Definition update (l : loc) (f : Job → Job) (st : BulkProcessor) : BulkProcessor :=
  {| heap := alter f l (heap st); jobs := jobs st |}.

(** Reading a dictionary through a reference. *)
Definition deref (st : BulkProcessor) (l : loc) : option Job := heap st !! l.

(** The record the table holds for [id], read through the table. *)
Definition record_of (st : BulkProcessor) (id : string) : option Job :=
  jobs st !! id ≫= deref st.

(** ** The worker thread *)

(** Where a worker stands.  Each step below is one critical section of
    [_process_job] together with the unlocked code that follows it. *)
Inductive Worker : Type :=
| at_start (id : string)
| at_loop (job : loc) (gen_obs : bool) (idx : nat) (rest : list string)
| in_body (job : loc) (gen_obs : bool) (idx : nat) (url : string) (rest : list string)
| finished.

(** ** create_job *)

(** [f"job_{int(time.time() * 1000)}"], from the clock reading in whole
    milliseconds. *)
Definition make_job_id (time_ms : Z) : string := "job_" +:+ pretty time_ms.

Definition new_job (id : string) (urls : list string) (gen_obs : bool)
    (now : timestamp) : Job :=
  {| job_id := id;
     urls := urls;
     total := length urls;
     completed := 0;
     successful := 0;
     failed := 0;
     current_url := None;
     status := Queued;
     results := [];
     errors := [];
     started_at := now;
     completed_at := None;
     generate_observations := gen_obs |}.

(** [create_job(urls, generate_observations)], with the two clock readings it
    takes.  Returns the job id, the processor afterwards and the worker thread
    it started. *)
Definition create_job (urls : list string) (gen_obs : bool)
    (time_ms : Z) (now : timestamp) (st : BulkProcessor)
    : string * BulkProcessor * Worker :=
  let id := make_job_id time_ms in
  let l := fresh (dom (heap st)) in
  (id,
   {| heap := <[l := new_job id urls gen_obs now]> (heap st);
      jobs := <[id := l]> (jobs st) |},
   at_start id).

(** ** The per-URL body of the worker *)

(** What the outside world answers while one URL is processed. *)
Record Env : Type := mkEnv {
  diagnose_site : res Diagnosis;                          (* [diagnose_site(url)] *)
  generate_technical_observation : res (option string);   (* a text or [None] *)
  urlparse_domain : res string;   (* [parsed.netloc or parsed.path.split('/')[0]] *)
  os_makedirs : res ();           (* [os.makedirs('results', exist_ok=True)] *)
  json_dump : res ()              (* [open(filepath, 'w')] and [json.dump] *)
}.

(** The oracle of one worker: the answers for the URL at each (1-based)
    position, and the clock read when the job completes. *)
Record World : Type := mkWorld {
  env : nat → Env;
  datetime_now : timestamp
}.

Fixpoint string_map (f : ascii → ascii) (s : string) : string :=
  match s with
  | EmptyString => EmptyString
  | String c s' => String (f c) (string_map f s')
  end.

(** [s.replace(a, b)] for single characters. *)
Definition replace_char (a b : ascii) (s : string) : string :=
  string_map (λ c, if Ascii.eqb c a then b else c) s.

(** [s.replace('www.', '')] *)
Fixpoint remove_www (s : string) : string :=
  match s with
  | String "w" (String "w" (String "w" (String "." s'))) => remove_www s'
  | String c s' => String c (remove_www s')
  | EmptyString => EmptyString
  end.

(** [c.isalnum()] on the ASCII range. *)
Definition isalnum (c : ascii) : bool :=
  let n := Ascii.N_of_ascii c in
  ((48 <=? n) && (n <=? 57) || (65 <=? n) && (n <=? 90)
   || (97 <=? n) && (n <=? 122))%N.

(** Lines 93-96: the file name computed from the domain of the URL. *)
Definition diagnosis_filename (domain : string) : string :=
  let domain := replace_char ":" "_" (replace_char "/" "_"
                  (replace_char "." "_" (remove_www domain))) in
  let domain := string_map (λ c,
                  if isalnum c || Ascii.eqb c "_" || Ascii.eqb c "-"
                  then c else "_"%char) domain in
  let domain := String.substring 0 50 domain in
  "diagnosis_" +:+ domain +:+ ".json".

(** Lines 82-88: the optional observation.  A failure of the generator is
    caught by the inner handler. *)
Definition add_observation (e : Env) (gen_obs : bool) (result : Diagnosis)
    : Diagnosis :=
  if gen_obs && truthy (dict_get_or_False result "vulnerability_detected") then
    try_except
      (observation ← generate_technical_observation e;
       Ok (match observation with
           | Some text =>
               if truthy (PyStr text)
               then <["technical_observation" := PyStr text]> result
               else result
           | None => result
           end))
      (λ _, result)
  else result.

(** Lines 100-108: writing the file, inside its own handler. *)
Definition save_result (e : Env) (filename : string) (result : Diagnosis)
    : Diagnosis :=
  try_except
    (_ ← json_dump e;
     Ok (<["saved" := PyBool true]> (<["output_file" := PyStr filename]> result)))
    (λ msg, <["save_error" := PyStr msg]> (<["saved" := PyBool false]> result)).

(** Lines 79-108: everything between the two critical sections of the [try]
    block.  [urlparse] and [os.makedirs] are called outside the inner
    handlers. *)
Definition diagnose_url (e : Env) (gen_obs : bool) : res Diagnosis :=
  result ← diagnose_site e;
  let result := add_observation e gen_obs result in
  domain ← urlparse_domain e;
  let filename := diagnosis_filename domain in
  _ ← os_makedirs e;
  Ok (save_result e filename result).

(** ** The critical sections of the worker, as updates of the job record *)

(** Line 64 *)
Definition mark_processing (j : Job) : Job :=
  {| job_id := job_id j; urls := urls j; total := total j;
     completed := completed j; successful := successful j; failed := failed j;
     current_url := current_url j;
     status := Processing;
     results := results j; errors := errors j; started_at := started_at j;
     completed_at := completed_at j;
     generate_observations := generate_observations j |}.

(** Lines 72-74 *)
Definition begin_url (url : string) (idx : nat) (j : Job) : Job :=
  {| job_id := job_id j; urls := urls j; total := total j;
     completed := idx - 1;
     successful := successful j; failed := failed j;
     current_url := Some url;
     status := status j;
     results := results j; errors := errors j; started_at := started_at j;
     completed_at := completed_at j;
     generate_observations := generate_observations j |}.

(** Lines 111-118 *)
Definition record_success (url : string) (result : Diagnosis) (idx : nat)
    (j : Job) : Job :=
  {| job_id := job_id j; urls := urls j; total := total j;
     completed := idx;
     successful := successful j + 1;
     failed := failed j;
     current_url := current_url j;
     status := status j;
     results := results j ++ [success url result];
     errors := errors j; started_at := started_at j;
     completed_at := completed_at j;
     generate_observations := generate_observations j |}.

(** Lines 125-136 *)
Definition record_error (url : string) (error_msg : string) (idx : nat)
    (j : Job) : Job :=
  {| job_id := job_id j; urls := urls j; total := total j;
     completed := idx;
     successful := successful j;
     failed := failed j + 1;
     current_url := current_url j;
     status := status j;
     results := results j ++ [error url error_msg];
     errors := errors j ++ [mkErrorEntry url error_msg];
     started_at := started_at j;
     completed_at := completed_at j;
     generate_observations := generate_observations j |}.

(** Lines 139-142 *)
Definition mark_completed (now : timestamp) (j : Job) : Job :=
  {| job_id := job_id j; urls := urls j; total := total j;
     completed := completed j; successful := successful j; failed := failed j;
     current_url := None;
     status := Completed;
     results := results j; errors := errors j; started_at := started_at j;
     completed_at := Some now;
     generate_observations := generate_observations j |}.

(** Lines 76-136 after the progress update: the [try] block and its
    [except Exception] handler, whose effect on the record is one of the two
    appends. *)
Definition record_outcome (e : Env) (gen_obs : bool) (idx : nat) (url : string)
    : Job → Job :=
  try_except
    (result ← diagnose_url e gen_obs;
     Ok (record_success url result idx))
    (λ error_msg, record_error url error_msg idx).

(** ** Small steps of a worker *)

Definition worker_step (w : World) (c : Worker * BulkProcessor)
    : option (Worker * BulkProcessor) :=
  let '(pc, st) := c in
  match pc with
  | at_start id =>
      match jobs st !! id with
      | None => Some (finished, st)                        (* lines 61-62 *)
      | Some l =>
          j ← deref st l;
          Some (at_loop l (generate_observations j) 1 (urls j),
                update l mark_processing st)
      end
  | at_loop l g idx (url :: rest) =>
      Some (in_body l g idx url rest, update l (begin_url url idx) st)
  | in_body l g idx url rest =>
      Some (at_loop l g (S idx) rest,
            update l (record_outcome (env w idx) g idx url) st)
  | at_loop l g idx [] =>
      Some (finished, update l (mark_completed (datetime_now w)) st)
  | finished => None
  end.

Definition step (w : World) (c c' : Worker * BulkProcessor) : Prop :=
  worker_step w c = Some c'.

(** ** The worker run to its end *)

(** The [for idx, url in enumerate(urls, 1)] loop from position [idx] on. *)
Fixpoint process_urls (w : World) (l : loc) (g : bool) (idx : nat)
    (rest : list string) (st : BulkProcessor) : BulkProcessor :=
  match rest with
  | [] => st
  | url :: rest' =>
      process_urls w l g (S idx) rest'
        (update l (record_outcome (env w idx) g idx url)
           (update l (begin_url url idx) st))
  end.

(** [_process_job(job_id)] run without interruption.  [None] stands for a
    reference in the table without an object behind it, which no operation
    below produces. *)
Definition _process_job (w : World) (id : string) (st : BulkProcessor)
    : option BulkProcessor :=
  match jobs st !! id with
  | None => Some st
  | Some l =>
      j ← deref st l;
      Some (update l (mark_completed (datetime_now w))
              (process_urls w l (generate_observations j) 1 (urls j)
                 (update l mark_processing st)))
  end.

(** ** get_job_status *)

(** [self.jobs.get(job_id)]: the value stored in the table, that is, the
    reference itself, or [None]. *)
Definition get_job_status (id : string) (st : BulkProcessor) : option loc :=
  jobs st !! id.

(** ** cleanup_old_jobs *)

(** [(current_time - completed_at).total_seconds() / 3600], as an exact
    rational number (the source computes it in floating point). *)
Definition age_hours (current_time completed_at : timestamp) : Q :=
  (inject_Z (current_time - completed_at) / inject_Z 1000000) / inject_Z 3600.

(** [a > b] on rationals. *)
Definition Qgtb (a b : Q) : bool :=
  if Qlt_le_dec b a then true else false.

(** Lines 166-169 for one record: is it to be removed?
    [datetime.fromisoformat(None)] raises [TypeError]. *)
Definition expired (max_age_hours : Z) (current_time : timestamp) (j : Job)
    : res bool :=
  if decide (status j = Completed) then
    match completed_at j with
    | Some t => Ok (Qgtb (age_hours current_time t) (inject_Z max_age_hours))
    | None => Raise "fromisoformat: argument must be str"
    end
  else Ok false.

(** Lines 164-170: the scan over [self.jobs.items()].  A reference without an
    object cannot occur in Python; the model reports it as an error. *)
Fixpoint scan (max_age_hours : Z) (current_time : timestamp)
    (st : BulkProcessor) (items : list (string * loc)) : res (list string) :=
  match items with
  | [] => Ok []
  | (id, l) :: items' =>
      j ← match deref st l with
          | Some j => Ok j
          | None => Raise "no such object"
          end;
      b ← expired max_age_hours current_time j;
      jobs_to_remove ← scan max_age_hours current_time st items';
      Ok (if b : bool then id :: jobs_to_remove else jobs_to_remove)
  end.

(** Lines 172-173: [for job_id in jobs_to_remove: del self.jobs[job_id]] *)
Definition delete_all (jobs_to_remove : list string) (m : gmap string loc)
    : gmap string loc :=
  foldl (λ m id, delete id m) m jobs_to_remove.

(** Lines 175-176: what is printed. *)
Definition cleanup_message (jobs_to_remove : list string) : list string :=
  match jobs_to_remove with
  | [] => []
  | _ => ["Cleaned up " +:+ pretty (length jobs_to_remove) +:+ " old jobs"]
  end.

(** [cleanup_old_jobs(max_age_hours)] with the clock reading it takes.  It
    yields the processor afterwards, the lines printed and the value returned
    to the caller; the function has no [return] statement.  When the scan
    raises, the table is left as it was. *)
Definition cleanup_old_jobs (max_age_hours : Z) (current_time : timestamp)
    (st : BulkProcessor) : res (BulkProcessor * list string * pyval) :=
  jobs_to_remove ← scan max_age_hours current_time st (map_to_list (jobs st));
  Ok ({| heap := heap st; jobs := delete_all jobs_to_remove (jobs st) |},
      cleanup_message jobs_to_remove,
      PyNone).

(** ** Well-formed processors *)

(** Every reference in the table has its object, and a completed job has its
    completion time: lines 140-141 set both in one critical section. *)
Definition job_ok (j : Job) : Prop :=
  status j = Completed → is_Some (completed_at j).

Definition wf (st : BulkProcessor) : Prop :=
  ∀ id l, jobs st !! id = Some l → ∃ j, deref st l = Some j ∧ job_ok j.

(** A record is due for removal. *)
Definition aged_out (max_age_hours : Z) (current_time : timestamp) (j : Job)
    : Prop :=
  status j = Completed ∧
  ∃ t, completed_at j = Some t ∧
       (inject_Z max_age_hours < age_hours current_time t)%Q.

(** ** The loop on the record alone *)

(** The effect of the loop on the job dictionary itself, from position [idx]
    on: what [process_urls] does to the object at the worker's reference. *)
Fixpoint job_loop (w : World) (g : bool) (idx : nat) (rest : list string)
    (j : Job) : Job :=
  match rest with
  | [] => j
  | url :: rest' =>
      job_loop w g (S idx) rest'
        (record_outcome (env w idx) g idx url (begin_url url idx j))
  end.

(** The outcome recorded for the URL at position [idx]. *)
Definition outcome_at (w : World) (g : bool) (idx : nat) (url : string)
    : Outcome :=
  match diagnose_url (env w idx) g with
  | Ok result => success url result
  | Raise error_msg => error url error_msg
  end.

(** The outcomes of the URLs [rest] standing at positions [idx], [idx+1], ...,
    in that order. *)
Fixpoint outcomes_from (w : World) (g : bool) (idx : nat) (rest : list string)
    : list Outcome :=
  match rest with
  | [] => []
  | url :: rest' => outcome_at w g idx url :: outcomes_from w g (S idx) rest'
  end.

Definition is_success (o : Outcome) : bool :=
  match o with success _ _ => true | error _ _ => false end.

Definition is_error (o : Outcome) : bool := negb (is_success o).

(** The [errors] entry of an error outcome. *)
Definition error_entry (o : Outcome) : list ErrorEntry :=
  match o with
  | success _ _ => []
  | error url error_msg => [mkErrorEntry url error_msg]
  end.

Definition outcome_url (o : Outcome) : string :=
  match o with success url _ => url | error url _ => url end.

(** The record at the end of a run, from the record at its start. *)
Definition final_record (w : World) (j : Job) : Job :=
  mark_completed (datetime_now w)
    (job_loop w (generate_observations j) 1 (urls j) (mark_processing j)).

(** ** Sample answers of the outside world *)

Definition sample_payload : Diagnosis :=
  <["vulnerability_detected" := PyBool true]> (<["status" := PyStr "at_risk"]> ∅).

(** Every call succeeds. *)
Definition env_ok : Env :=
  mkEnv (Ok sample_payload) (Ok (Some "jQuery 1.x is end-of-life."))
        (Ok "www.example.com") (Ok ()) (Ok ()).

(** [diagnose_site] raises. *)
Definition env_fail : Env :=
  mkEnv (Raise "net::ERR_NAME_NOT_RESOLVED") (Ok None)
        (Ok "www.example.com") (Ok ()) (Ok ()).

(** [diagnose_site] succeeds, then the directory [results] cannot be
    created. *)
Definition env_no_dir : Env :=
  mkEnv (Ok sample_payload) (Ok None) (Ok "www.example.com")
        (Raise "[Errno 13] Permission denied: 'results'")
        (Raise "[Errno 2] No such file or directory").

(** The diagnosis fails on the second URL only. *)
Definition world_second_fails : World :=
  mkWorld (λ idx, if Nat.eqb idx 2 then env_fail else env_ok) 5000000.


(** The diagnosis fails on the second URL only, and the directory [results]
    cannot be created. *)
Definition world_no_dir : World :=
  mkWorld (λ idx, if Nat.eqb idx 2 then env_fail else env_no_dir) 5000000.

(** ** Running a worker for a number of steps *)

Fixpoint run_steps (w : World) (n : nat) (c : Worker * BulkProcessor)
    : Worker * BulkProcessor :=
  match n with
  | 0 => c
  | S n' =>
      match worker_step w c with
      | Some c' => run_steps w n' c'
      | None => c
      end
  end.

(** ** The invariant of a worker and its record *)

(** What holds, at each point of the run of the worker of job [id], of the
    record at its reference [l], for a batch of [n] URLs. *)
Definition worker_inv (id : string) (l : loc) (n : nat)
    (c : Worker * BulkProcessor) : Prop :=
  jobs c.2 !! id = Some l ∧
  ∃ j, deref c.2 l = Some j ∧ total j = n ∧
    match c.1 with
    | at_start id' =>
        id' = id ∧ status j = Queued ∧ total j = length (urls j) ∧
        completed j = 0 ∧ successful j = 0 ∧ failed j = 0
    | at_loop l' _ idx rest =>
        l' = l ∧ status j = Processing ∧ 1 ≤ idx ∧
        idx - 1 + length rest = total j ∧
        completed j = idx - 1 ∧ successful j + failed j = idx - 1
    | in_body l' _ idx _ rest =>
        l' = l ∧ status j = Processing ∧ 1 ≤ idx ∧
        idx + length rest = total j ∧
        completed j = idx - 1 ∧ successful j + failed j = idx - 1
    | finished =>
        status j = Completed ∧
        completed j = total j ∧ successful j + failed j = total j
    end.

(** ** Sample processors *)

(** A processor after one [create_job] call, the worker not yet started. *)
Definition sample_created : BulkProcessor :=
  (create_job ["A"; "B"; "C"] true 1700 100 init).1.2.

(** The sample job after its worker has run; it completed at time 5000000. *)
Definition sample_finished : BulkProcessor :=
  default init (_process_job world_second_fails "job_1700" sample_created).

(** ** Further notions on runs *)

(** The order of the three status values along the life of a job. *)
Definition status_rank (s : Status) : nat :=
  match s with Queued => 0 | Processing => 1 | Completed => 2 end.

(** The URLs a worker has still to visit, the one in hand included. *)
Definition remaining (pc : Worker) (j : Job) : list string :=
  match pc with
  | at_start _ => urls j
  | at_loop _ _ _ rest => rest
  | in_body _ _ _ url rest => url :: rest
  | finished => []
  end.

(** The bookkeeping of a record agrees with its list of results: [errors]
    holds the error outcomes in order, the two counters count the two kinds of
    outcome, and the outcomes are those of the URLs visited so far. *)
Definition results_agree (pc : Worker) (j : Job) : Prop :=
  errors j = results j ≫= error_entry ∧
  successful j = length (filter is_success (results j)) ∧
  failed j = length (filter is_error (results j)) ∧
  urls j = (outcome_url <$> results j) ++ remaining pc j.

(** ** Characters of a file name *)

Fixpoint string_forallb (P : ascii → bool) (s : string) : bool :=
  match s with
  | EmptyString => true
  | String c s' => P c && string_forallb P s'
  end.

(** Letters, digits, underscore and hyphen. *)
Definition safe_char (c : ascii) : bool :=
  isalnum c || Ascii.eqb c "_" || Ascii.eqb c "-".

(** * csv_parser.py: URLs from an uploaded table

    Characters are ASCII: [strip], [lower] and the tests on characters are
    those of Python on the ASCII range.  [urlparse] is a parameter, and the
    rows are those the [csv] module yields for the content. *)

(** ** Strings *)

(** [c.isspace()]: tab to carriage return, the four separators and space. *)
Definition isspace (c : ascii) : bool :=
  let n := Ascii.N_of_ascii c in
  ((9 <=? n) && (n <=? 13) || (28 <=? n) && (n <=? 32))%N.

Fixpoint lstrip (s : string) : string :=
  match s with
  | EmptyString => EmptyString
  | String c s' => if isspace c then lstrip s' else s
  end.

Fixpoint rstrip (s : string) : string :=
  match s with
  | EmptyString => EmptyString
  | String c s' =>
      match rstrip s' with
      | EmptyString => if isspace c then EmptyString else String c EmptyString
      | r => String c r
      end
  end.

(** [s.strip()] *)
Definition strip (s : string) : string := rstrip (lstrip s).

Definition lower_char (c : ascii) : ascii :=
  let n := Ascii.N_of_ascii c in
  if ((65 <=? n) && (n <=? 90))%N then Ascii.ascii_of_N (n + 32) else c.

(** [s.lower()] *)
Definition lower (s : string) : string := string_map lower_char s.

(** [sub in s] *)
Fixpoint contains (sub s : string) : bool :=
  String.prefix sub s ||
  match s with
  | EmptyString => false
  | String _ s' => contains sub s'
  end.

(** [s.startswith(('http://', 'https://'))] *)
Definition has_scheme (s : string) : bool :=
  String.prefix "http://" s || String.prefix "https://" s.

(** ** validate_url and normalize_url *)

(** [urlparse] yields the [netloc] and the [path] of its result, or raises. *)
Definition validate_url (urlparse : string → res (string * string))
    (url : string) : bool :=
  if String.eqb url "" then false else
  let url := strip url in
  if String.eqb url "" then false else
  let test_url := if negb (has_scheme url) then "https://" +:+ url else url in
  match urlparse test_url with
  | Ok (netloc, path) => negb (String.eqb netloc "") || negb (String.eqb path "")
  | Raise _ => false
  end.

Definition normalize_url (url : string) : string :=
  if String.eqb url "" then url else
  let url := strip url in
  if negb (has_scheme url) then "https://" +:+ url else url.

(** ** find_url_column *)

Definition URL_COLUMN_NAMES : list string :=
  ["url"; "URL"; "website"; "Website"; "domain"; "Domain";
   "company_url"; "Company_URL"; "site"; "Site"; "link"; "Link";
   "website_url"; "Website_URL"; "domain_name"; "Domain_Name";
   "company_website"; "Company_Website"; "web_address"; "Web_Address"].

(** The keywords of the inner loop. *)
Definition URL_KEYWORDS : list string :=
  ["url"; "website"; "domain"; "link"; "site"].

(** The test of the loop body on one element of [headers_lower]: the header
    is one of the names, or contains one of the keywords. *)
Definition is_url_header (header : string) : bool :=
  existsb (String.eqb header) (lower <$> URL_COLUMN_NAMES) ||
  existsb (λ url_keyword, contains url_keyword header) URL_KEYWORDS.

(** The loop over [enumerate(headers_lower)], from index [idx] on. *)
Fixpoint first_url_header (idx : nat) (headers_lower : list string)
    : option nat :=
  match headers_lower with
  | [] => None
  | header :: rest =>
      if is_url_header header then Some idx
      else first_url_header (S idx) rest
  end.

Definition find_url_column (headers : list string) : nat :=
  let headers_lower := (λ h, lower (strip h)) <$> headers in
  default 0 (first_url_header 0 headers_lower).

(** ** parse_csv_file and validate_csv_file *)

Inductive exception : Type :=
| ValueError (msg : string)
| csv_Error (msg : string)
| OtherException (msg : string).

(** [str(e)] *)
Definition str (e : exception) : string :=
  match e with ValueError msg | csv_Error msg | OtherException msg => msg end.

Inductive outcome (A : Type) : Type :=
| Return (a : A)
| Throw (e : exception).
Arguments Return {A} a.
Arguments Throw {A} e.

(** What iterating [csv.reader] gives: a row and the rest, the end of the
    input, or an exception.  A failure of [csv.Sniffer().sniff], which comes
    before the first row is asked for, is a reader that raises at once. *)
Inductive Reader : Type :=
| reader_row (row : list string) (next : Reader)
| reader_end
| reader_raise (e : exception).

Record Metadata : Type := mkMetadata {
  filename : string;
  total_rows : nat;
  url_count : nat;
  headers : list string;
  url_column : string;
  url_column_index : nat
}.

(** The loop [for row in reader], with the two variables it updates. *)
Fixpoint read_rows (urlparse : string → res (string * string))
    (url_column_idx : nat) (reader : Reader)
    (urls : list string) (row_number : nat) : outcome (list string * nat) :=
  match reader with
  | reader_end => Return (urls, row_number)
  | reader_raise e => Throw e
  | reader_row row next =>
      let row_number := row_number + 1 in
      match row with
      | [] => read_rows urlparse url_column_idx next urls row_number
      | _ =>
          match row !! url_column_idx with
          | Some cell =>
              let url_candidate := strip cell in
              if negb (String.eqb url_candidate "")
                 && validate_url urlparse url_candidate
              then read_rows urlparse url_column_idx next
                     (urls ++ [normalize_url url_candidate]) row_number
              else read_rows urlparse url_column_idx next urls row_number
          | None => read_rows urlparse url_column_idx next urls row_number
          end
      end
  end.

(** The body of the outer [try] of [parse_csv_file]. *)
Definition parse_csv_body (urlparse : string → res (string * string))
    (reader : Reader) : outcome (list string * Metadata) :=
  match reader with
  | reader_end => Throw (ValueError "CSV file is empty")
  | reader_raise e => Throw e
  | reader_row [] _ => Throw (ValueError "CSV file has no headers")
  | reader_row hs rows =>
      let url_column_idx := find_url_column hs in
      match read_rows urlparse url_column_idx rows [] 1 with
      | Throw e => Throw e
      | Return ([], _) => Throw (ValueError "No valid URLs found in CSV file")
      | Return (urls, row_number) =>
          Return (urls,
                  {| filename := "uploaded_file.csv";
                     total_rows := row_number - 1;
                     url_count := length urls;
                     headers := hs;
                     url_column := default "Unknown" (hs !! url_column_idx);
                     url_column_index := url_column_idx |})
      end
  end.

(** [parse_csv_file], with its two handlers: [except csv.Error] first, then
    [except Exception]. *)
Definition parse_csv_file (urlparse : string → res (string * string))
    (reader : Reader) : outcome (list string * Metadata) :=
  match parse_csv_body urlparse reader with
  | Return r => Return r
  | Throw (csv_Error msg) => Throw (ValueError ("Invalid CSV format: " +:+ msg))
  | Throw e => Throw (ValueError ("Error parsing CSV file: " +:+ str e))
  end.

(** [metadata['filename'] = filename] *)
Definition set_filename (name : string) (m : Metadata) : Metadata :=
  {| filename := name; total_rows := total_rows m; url_count := url_count m;
     headers := headers m; url_column := url_column m;
     url_column_index := url_column_index m |}.

(** [validate_csv_file]: the flag, the message and the data, [None] standing
    for the empty dictionary. *)
Definition validate_csv_file (urlparse : string → res (string * string))
    (reader : Reader) (name : string)
    : bool * string * option (list string * Metadata) :=
  match parse_csv_file urlparse reader with
  | Return (urls, metadata) => (true, "", Some (urls, set_filename name metadata))
  | Throw (ValueError msg) => (false, msg, None)
  | Throw e => (false, "Unexpected error: " +:+ str e, None)
  end.

(** The rows a reader yields before it ends or raises. *)
Fixpoint rows_of (reader : Reader) : list (list string) :=
  match reader with
  | reader_row row next => row :: rows_of next
  | _ => []
  end.

(** ** Sample table *)

(** A [urlparse] good enough for the samples: everything after the scheme is
    the [netloc]. *)
Definition sample_urlparse (url : string) : res (string * string) :=
  Ok (String.substring 8 (String.length url) url, "").

Definition sample_reader : Reader :=
  reader_row ["Name"; " Company_URL "]
    (reader_row ["Acme"; " acme.example "]
       (reader_row []
          (reader_row ["Solo"]
             (reader_row ["Initech"; "http://initech.example"] reader_end)))).

(** * diagnose_website.py: the batch function and the technology name *)

(** ** diagnose_multiple_sites *)

(** Lines 606-607: the protocol is added when missing. *)
Definition with_scheme (url : string) : string :=
  if negb (has_scheme url) then "https://" +:+ url else url.

(** The loop of [diagnose_multiple_sites] from position [idx] on, [results]
    being the list built so far.  [sites idx url] answers the calls made for
    the URL at position [idx], [url] being the argument of [diagnose_site].
    Neither call is inside a [try]. *)
Fixpoint diagnose_sites_from (sites : nat → string → Env) (gen_obs : bool)
    (idx : nat) (batch : list string) (acc : list Diagnosis)
    : res (list Diagnosis) :=
  match batch with
  | [] => Ok acc
  | url :: rest =>
      let url := with_scheme url in
      result ← diagnose_site (sites idx url);
      result ←
        (if gen_obs && truthy (dict_get_or_False result "vulnerability_detected")
         then
           observation ← generate_technical_observation (sites idx url);
           Ok (match observation with
               | Some text =>
                   if truthy (PyStr text)
                   then <["technical_observation" := PyStr text]> result
                   else result
               | None => result
               end)
         else Ok result);
      diagnose_sites_from sites gen_obs (S idx) rest (acc ++ [result])
  end.

Definition diagnose_multiple_sites (sites : nat → string → Env)
    (batch : list string) (gen_obs : bool) : res (list Diagnosis) :=
  diagnose_sites_from sites gen_obs 1 batch [].

(** ** format_tech_name *)

(** [tech_map], in the order it is written: the loop over [tech_map.items()]
    follows it. *)
Definition tech_map : list (string * string) :=
  [("angularjs", "AngularJS"); ("angular", "Angular"); ("jquery", "jQuery");
   ("bootstrap", "Bootstrap"); ("react", "React"); ("vue", "Vue.js");
   ("nextjs", "Next.js"); ("nuxt", "Nuxt.js"); ("svelte", "Svelte");
   ("backbone", "Backbone.js"); ("ember", "Ember.js");
   ("knockout", "Knockout.js"); ("dojo", "Dojo Toolkit");
   ("prototype", "Prototype.js"); ("mootools", "MooTools"); ("yui", "YUI");
   ("extjs", "ExtJS"); ("underscore", "Underscore.js"); ("lodash", "Lodash");
   ("moment", "Moment.js"); ("jquery_ui", "jQuery UI");
   ("wordpress", "WordPress"); ("drupal", "Drupal"); ("joomla", "Joomla");
   ("magento", "Magento"); ("shopify", "Shopify");
   ("woocommerce", "WooCommerce"); ("aspnet", "ASP.NET"); ("php", "PHP");
   ("rails", "Ruby on Rails"); ("django", "Django"); ("laravel", "Laravel");
   ("handlebars", "Handlebars"); ("mustache", "Mustache.js");
   ("marionette", "Marionette.js"); ("requirejs", "RequireJS");
   ("socketio", "Socket.io"); ("express", "Express.js");
   ("fontawesome", "Font Awesome"); ("modernizr", "Modernizr")].

Definition priority_order : list string :=
  ["react"; "vue"; "angular"; "angularjs"; "nextjs"; "nuxt"; "svelte";
   "wordpress"; "drupal"; "joomla"; "magento"; "shopify"; "rails";
   "django"; "laravel"; "aspnet"; "php"; "express"].

(** An element of [vulnerabilities]; [None] is a missing key. *)
Record Vulnerability : Type := mkVulnerability {
  vuln_type : option string;
  vuln_version : option string
}.

(** An element of [detected_techs]; the version may be [None]. *)
Record Tech : Type := mkTech {
  tech_name : string;
  tech_version : option string
}.

(** Lines 253-257: the first key of [tech_map] contained in the type. *)
Fixpoint first_key_in (tech_type_lower : string) (m : list (string * string))
    : string :=
  match m with
  | [] => "Unknown"
  | (key, name) :: m' =>
      if contains key tech_type_lower then name
      else first_key_in tech_type_lower m'
  end.

(** [m.get(key, default)] on the pairs of a dictionary. *)
Fixpoint assoc_get (key : string) (m : list (string * string))
    (default_value : string) : string :=
  match m with
  | [] => default_value
  | (k, v) :: m' => if String.eqb k key then v else assoc_get key m' default_value
  end.

Definition is_alpha (c : ascii) : bool :=
  let n := Ascii.N_of_ascii c in
  ((65 <=? n) && (n <=? 90) || (97 <=? n) && (n <=? 122))%N.

Definition upper_char (c : ascii) : ascii :=
  let n := Ascii.N_of_ascii c in
  if ((97 <=? n) && (n <=? 122))%N then Ascii.ascii_of_N (n - 32) else c.

(** [s.title()]: a letter after a letter in lower case, any other letter in
    upper case. *)
Fixpoint title_from (previous_is_cased : bool) (s : string) : string :=
  match s with
  | EmptyString => EmptyString
  | String c s' =>
      String (if is_alpha c
              then if previous_is_cased then lower_char c else upper_char c
              else c)
             (title_from (is_alpha c) s')
  end.

Definition title (s : string) : string := title_from false s.

(** [f"{tech_name} {version}"] when the version is a non-empty string. *)
Definition with_version (name : string) (version : option string) : string :=
  match version with
  | Some v => if truthy (PyStr v) then name +:+ " " +:+ v else name
  | None => name
  end.

(** The inner loop of lines 273-278: the first detected technology of that
    name. *)
Fixpoint find_tech (priority_tech : string) (detected_techs : list Tech)
    : option Tech :=
  match detected_techs with
  | [] => None
  | tech :: rest =>
      if String.eqb (tech_name tech) priority_tech then Some tech
      else find_tech priority_tech rest
  end.

(** The outer loop of lines 272-278. *)
Fixpoint by_priority (order : list string) (detected_techs : list Tech)
    : option string :=
  match order with
  | [] => None
  | priority_tech :: order' =>
      match find_tech priority_tech detected_techs with
      | Some tech =>
          Some (with_version
                  (assoc_get priority_tech tech_map (title priority_tech))
                  (tech_version tech))
      | None => by_priority order' detected_techs
      end
  end.

(** [format_tech_name(vulnerabilities, detected_techs)]; [detected_techs] is
    [None] by default. *)
Definition format_tech_name (vulnerabilities : list Vulnerability)
    (detected_techs : option (list Tech)) : string :=
  match vulnerabilities with
  | first_vuln :: _ =>
      let tech_type := default "" (vuln_type first_vuln) in
      let version := default "unknown" (vuln_version first_vuln) in
      let name := first_key_in (lower tech_type) tech_map in
      if negb (String.eqb version "unknown") then name +:+ " " +:+ version
      else name
  | [] =>
      match detected_techs with
      | Some (first_tech :: rest) =>
          match by_priority priority_order (first_tech :: rest) with
          | Some name => name
          | None =>
              with_version
                (assoc_get (tech_name first_tech) tech_map
                   (title (tech_name first_tech)))
                (tech_version first_tech)
          end
      | _ => "Unknown"
      end
  end.

(** ** Sample sites *)

Definition sample_sites (idx : nat) (url : string) : Env :=
  if Nat.eqb idx 2 then env_fail else env_ok.

(** * Properties *)

(** ** The object store *)

Section store.
Implicit Types (st : BulkProcessor) (l : loc) (f : Job → Job).

Lemma jobs_update l f st : jobs (update l f st) = jobs st.
Proof. reflexivity. Qed.

Lemma deref_update_eq l f st j :
  deref st l = Some j → deref (update l f st) l = Some (f j).
Proof.
  unfold deref, update; simpl; intros Hj.
  by rewrite lookup_alter_eq, Hj.
Qed.

Lemma deref_update_ne l l' f st :
  l ≠ l' → deref (update l f st) l' = deref st l'.
Proof.
  unfold deref, update; simpl; intros Hne.
  by rewrite lookup_alter_ne.
Qed.

Lemma deref_update l l' f st :
  deref (update l f st) l' =
  if decide (l = l') then f <$> deref st l' else deref st l'.
Proof.
  case_decide as Hl.
  - subst l'. unfold deref, update; simpl. by rewrite lookup_alter_eq.
  - by apply deref_update_ne.
Qed.

Lemma record_of_update id l f st :
  jobs st !! id = Some l →
  record_of (update l f st) id = f <$> record_of st id.
Proof.
  intros Hid. unfold record_of. rewrite jobs_update, Hid. simpl.
  rewrite deref_update. by rewrite decide_True.
Qed.
End store.

(** ** The per-URL body *)

Section body.
Implicit Types (e : Env) (j : Job) (g : bool).

Lemma record_outcome_unfold e g idx url j :
  record_outcome e g idx url j =
  match diagnose_url e g with
  | Ok result => record_success url result idx j
  | Raise error_msg => record_error url error_msg idx j
  end.
Proof. unfold record_outcome. by destruct (diagnose_url e g). Qed.

(** A failure of [diagnose_site] is the failure of the whole [try] block. *)
Lemma diagnose_url_raise e g msg :
  diagnose_site e = Raise msg → diagnose_url e g = Raise msg.
Proof. unfold diagnose_url. by intros ->. Qed.

(** The [try] block fails only where a call outside the inner handlers
    fails. *)
Lemma diagnose_url_ok e g result domain :
  diagnose_site e = Ok result →
  urlparse_domain e = Ok domain →
  os_makedirs e = Ok () →
  diagnose_url e g =
  Ok (save_result e (diagnosis_filename domain) (add_observation e g result)).
Proof. unfold diagnose_url. by intros -> -> ->. Qed.

End body.

(** ** The loop, on the record *)

Section loop.
Variable w : World.
Variable g : bool.

Lemma job_loop_frame rest : ∀ idx j,
  let j' := job_loop w g idx rest j in
  job_id j' = job_id j ∧ urls j' = urls j ∧ total j' = total j ∧
  status j' = status j ∧ started_at j' = started_at j ∧
  completed_at j' = completed_at j ∧
  generate_observations j' = generate_observations j.
Proof.
  induction rest as [|url rest IH]; intros idx j; simpl; [done|].
  destruct (IH (S idx) (record_outcome (env w idx) g idx url (begin_url url idx j)))
    as (-> & -> & -> & -> & -> & -> & ->).
  rewrite record_outcome_unfold.
  by destruct (diagnose_url (env w idx) g).
Qed.

Lemma job_loop_results rest : ∀ idx j,
  results (job_loop w g idx rest j) = results j ++ outcomes_from w g idx rest.
Proof.
  induction rest as [|url rest IH]; intros idx j; simpl.
  - by rewrite app_nil_r.
  - rewrite IH, record_outcome_unfold. unfold outcome_at.
    destruct (diagnose_url (env w idx) g); simpl; by rewrite <- app_assoc.
Qed.

Lemma job_loop_errors rest : ∀ idx j,
  errors (job_loop w g idx rest j) =
  errors j ++ (outcomes_from w g idx rest ≫= error_entry).
Proof.
  induction rest as [|url rest IH]; intros idx j; simpl.
  - by rewrite app_nil_r.
  - rewrite IH, record_outcome_unfold. unfold outcome_at.
    destruct (diagnose_url (env w idx) g); simpl; [done|].
    by rewrite <- app_assoc.
Qed.

Lemma job_loop_counters rest : ∀ idx j,
  let os := outcomes_from w g idx rest in
  let j' := job_loop w g idx rest j in
  successful j' = successful j + length (filter is_success os) ∧
  failed j' = failed j + length (filter is_error os).
Proof.
  induction rest as [|url rest IH]; intros idx j; simpl; [lia|].
  destruct (IH (S idx) (record_outcome (env w idx) g idx url (begin_url url idx j)))
    as [-> ->].
  rewrite record_outcome_unfold. unfold outcome_at.
  destruct (diagnose_url (env w idx) g).
  - rewrite filter_cons_True by done.
    rewrite filter_cons_False by (unfold is_error; simpl; tauto).
    simpl. lia.
  - rewrite filter_cons_False by (simpl; tauto).
    rewrite filter_cons_True by done.
    simpl. lia.
Qed.

Lemma job_loop_completed rest : ∀ idx j,
  completed (job_loop w g idx rest j) =
  match rest with [] => completed j | _ => idx + length rest - 1 end.
Proof.
  induction rest as [|url rest IH]; intros idx j; simpl; [done|].
  rewrite IH. destruct rest as [|url' rest]; simpl.
  - rewrite record_outcome_unfold.
    destruct (diagnose_url (env w idx) g); simpl; lia.
  - lia.
Qed.

Lemma job_loop_current_url rest : ∀ idx j,
  current_url (job_loop w g idx rest j) =
  match last rest with Some url => Some url | None => current_url j end.
Proof.
  induction rest as [|url rest IH]; intros idx j; [done|].
  simpl job_loop. rewrite IH. destruct rest as [|url' rest].
  - simpl. rewrite record_outcome_unfold.
    by destruct (diagnose_url (env w idx) g).
  - rewrite last_cons_cons.
    destruct (last (url' :: rest)) eqn:E; [done|].
    by apply last_None in E.
Qed.



Lemma outcome_at_url idx url : outcome_url (outcome_at w g idx url) = url.
Proof. unfold outcome_at. by destruct (diagnose_url (env w idx) g). Qed.

Lemma outcomes_from_urls rest idx :
  outcome_url <$> outcomes_from w g idx rest = rest.
Proof.
  revert idx. induction rest as [|url rest IH]; intros idx; simpl; [done|].
  by rewrite outcome_at_url, IH.
Qed.

End loop.

(** ** The worker on the store *)

Section worker.
Variable w : World.
Implicit Types (st : BulkProcessor) (l : loc) (j : Job).

Lemma process_urls_jobs l g rest : ∀ idx st,
  jobs (process_urls w l g idx rest st) = jobs st.
Proof. induction rest as [|url rest IH]; intros idx st; simpl; by rewrite ?IH. Qed.

Lemma process_urls_deref l g rest : ∀ idx st j,
  deref st l = Some j →
  deref (process_urls w l g idx rest st) l = Some (job_loop w g idx rest j).
Proof.
  induction rest as [|url rest IH]; intros idx st j Hj; simpl; [done|].
  apply IH. by do 2 apply deref_update_eq.
Qed.

(** The worker touches no other object than its own. *)
Lemma process_urls_other l l' g rest : ∀ idx st,
  l ≠ l' → deref (process_urls w l g idx rest st) l' = deref st l'.
Proof.
  induction rest as [|url rest IH]; intros idx st Hne; simpl; [done|].
  rewrite IH by done. by rewrite !deref_update_ne.
Qed.

(** The loop in small steps. *)
Lemma run_loop l g rest : ∀ idx st,
  rtc (step w) (at_loop l g idx rest, st)
      (finished,
       update l (mark_completed (datetime_now w))
         (process_urls w l g idx rest st)).
Proof.
  induction rest as [|url rest IH]; intros idx st.
  - by apply rtc_once.
  - eapply rtc_l; [reflexivity|].
    eapply rtc_l; [reflexivity|].
    apply IH.
Qed.

Lemma run_job id l j st :
  jobs st !! id = Some l →
  deref st l = Some j →
  ∃ st', _process_job w id st = Some st' ∧
         rtc (step w) (at_start id, st) (finished, st') ∧
         jobs st' = jobs st ∧
         deref st' l = Some (final_record w j) ∧
         (∀ l', l ≠ l' → deref st' l' = deref st l').
Proof.
  intros Hid Hj. eexists. split; [|split; [|split; [|split]]].
  - unfold _process_job. rewrite Hid, Hj. reflexivity.
  - eapply rtc_l; [|apply run_loop].
    unfold step, worker_step. rewrite Hid, Hj. reflexivity.
  - by rewrite jobs_update, process_urls_jobs, jobs_update.
  - unfold final_record.
    apply deref_update_eq, process_urls_deref. by apply deref_update_eq.
  - intros l' Hne.
    by rewrite deref_update_ne, process_urls_other, deref_update_ne.
Qed.
End worker.

(** ** create_job *)

Lemma create_job_spec urls g time_ms now st id st1 th :
  create_job urls g time_ms now st = (id, st1, th) →
  let l := fresh (dom (heap st)) in
  id = make_job_id time_ms ∧ th = at_start id ∧
  deref st l = None ∧
  jobs st1 = <[id := l]> (jobs st) ∧
  deref st1 l = Some (new_job id urls g now) ∧
  (∀ l', l ≠ l' → deref st1 l' = deref st l').
Proof.
  unfold create_job. intros [= <- <- <-]. simpl.
  split; [done|]. split; [done|].
  assert (heap st !! fresh (dom (heap st)) = None) as Hfresh.
  { apply not_elem_of_dom, is_fresh. }
  split; [done|]. split; [done|]. unfold deref; simpl. split.
  - by rewrite lookup_insert_eq.
  - intros l' Hne. by rewrite lookup_insert_ne.
Qed.

(** The record of a freshly created job at the end of its worker's run. *)
Lemma created_job_runs (w : World) urls g time_ms now st id st1 th :
  create_job urls g time_ms now st = (id, st1, th) →
  ∃ st2,
    _process_job w id st1 = Some st2 ∧
    rtc (step w) (th, st1) (finished, st2) ∧
    record_of st2 id = Some (final_record w (new_job id urls g now)).
Proof.
  intros Hc. destruct (create_job_spec _ _ _ _ _ _ _ _ Hc)
    as (_ & -> & _ & Hjobs & Hnew & _).
  assert (jobs st1 !! id = Some (fresh (dom (heap st)))) as Hid.
  { by rewrite Hjobs, lookup_insert_eq. }
  destruct (run_job w id _ _ st1 Hid Hnew) as (st2 & Hrun & Hsteps & Hj2 & Hd & _).
  exists st2. split; [done|]. split; [done|].
  unfold record_of. rewrite Hj2, Hid. exact Hd.
Qed.

Lemma final_record_fields (w : World) (j : Job) :
  let g := generate_observations j in
  let os := outcomes_from w g 1 (urls j) in
  let j' := final_record w j in
  status j' = Completed ∧
  completed_at j' = Some (datetime_now w) ∧
  current_url j' = None ∧
  total j' = total j ∧
  urls j' = urls j ∧
  results j' = results j ++ os ∧
  errors j' = errors j ++ (os ≫= error_entry) ∧
  successful j' = successful j + length (filter is_success os) ∧
  failed j' = failed j + length (filter is_error os) ∧
  completed j' = match urls j with [] => completed j | _ => length (urls j) end.
Proof.
  intros g os j'. subst g os j'. unfold final_record. simpl.
  destruct (job_loop_frame w (generate_observations j) (urls j) 1
              (mark_processing j)) as (_ & Hurls & Htotal & _).
  destruct (job_loop_counters w (generate_observations j) (urls j) 1
              (mark_processing j)) as [Hs Hf].
  rewrite Htotal, Hurls, Hs, Hf.
  rewrite job_loop_results, job_loop_errors, job_loop_completed.
  repeat split; try done.
  destruct (urls j); simpl; [done|lia].
Qed.

(** ** The worker never aborts *)



(** ** Counters *)

Lemma run_steps_rtc (w : World) n : ∀ c, rtc (step w) c (run_steps w n c).
Proof.
  induction n as [|n IH]; intros c; simpl; [done|].
  destruct (worker_step w c) as [c'|] eqn:Hc; [|done].
  eapply rtc_l; [exact Hc|apply IH].
Qed.

Lemma worker_inv_init urls g time_ms now st id st1 th :
  create_job urls g time_ms now st = (id, st1, th) →
  worker_inv id (fresh (dom (heap st))) (length urls) (th, st1).
Proof.
  intros Hc. destruct (create_job_spec _ _ _ _ _ _ _ _ Hc)
    as (_ & -> & _ & Hjobs & Hnew & _).
  split; simpl.
  - by rewrite Hjobs, lookup_insert_eq.
  - eexists. split; [exact Hnew|]. by simpl.
Qed.

Lemma worker_inv_step (w : World) id l n c c' :
  worker_inv id l n c → step w c c' → worker_inv id l n c'.
Proof.
  destruct c as [pc st]. intros [Hid (j & Hj & Hn & Hpc)] Hstep.
  unfold step, worker_step in Hstep. simpl in Hid, Hj, Hpc.
  destruct pc as [id'|l' g idx [|url rest]|l' g idx url rest|].
  - destruct Hpc as (-> & Hst & Htot & Hc & Hs & Hf).
    rewrite Hid, Hj in Hstep. simpl in Hstep. injection Hstep as <-.
    split; [done|]. exists (mark_processing j).
    split; [by apply deref_update_eq|]. simpl. repeat split; try done; lia.
  - destruct Hpc as (-> & Hst & Hidx & Htot & Hc & Hsf).
    injection Hstep as <-.
    split; [done|]. exists (mark_completed (datetime_now w) j).
    split; [by apply deref_update_eq|]. simpl in *. repeat split; try done; lia.
  - destruct Hpc as (-> & Hst & Hidx & Htot & Hc & Hsf).
    injection Hstep as <-.
    split; [done|]. exists (begin_url url idx j).
    split; [by apply deref_update_eq|]. simpl in *. repeat split; try done; lia.
  - destruct Hpc as (-> & Hst & Hidx & Htot & Hc & Hsf).
    injection Hstep as <-.
    split; [done|]. exists (record_outcome (env w idx) g idx url j).
    split; [by apply deref_update_eq|].
    rewrite record_outcome_unfold.
    destruct (diagnose_url (env w idx) g); simpl in *;
      repeat split; try done; lia.
  - done.
Qed.

Lemma worker_inv_rtc (w : World) id l n c c' :
  worker_inv id l n c → rtc (step w) c c' → worker_inv id l n c'.
Proof.
  intros Hinv Hsteps. induction Hsteps as [|c1 c2 c3 H12 _ IH]; [done|].
  apply IH. by eapply worker_inv_step.
Qed.



(** ** Creating a job with no URL *)

(** C3, as stated, fails: [create_job] on the empty list returns an id and
    registers a record under it. *)
Lemma create_job_empty_not_rejected :
  (create_job [] false 1700 100 init).1.1 = "job_1700" ∧
  jobs (create_job [] false 1700 100 init).1.2 ≠ jobs init ∧
  record_of (create_job [] false 1700 100 init).1.2 "job_1700"
    = Some (new_job "job_1700" [] false 100).
Proof.
  split; [reflexivity|]. split; [|reflexivity].
  intros H. apply (f_equal (λ m, m !! "job_1700")) in H. vm_compute in H.
  discriminate.
Qed.

(** C3, amended.  [create_job] does not look at the length of the list: on
    the empty list it returns the id made from the clock, and registers under
    it a new record, queued, with [total = 0] and no URL, for which it starts
    a worker. *)
Theorem create_job_accepts_empty_batch g time_ms now st :
  ∃ st1 l j,
    create_job [] g time_ms now st
      = (make_job_id time_ms, st1, at_start (make_job_id time_ms)) ∧
    deref st l = None ∧
    jobs st1 !! make_job_id time_ms = Some l ∧
    deref st1 l = Some j ∧
    j = new_job (make_job_id time_ms) [] g now ∧
    status j = Queued ∧ total j = 0 ∧ urls j = [].
Proof.
  destruct (create_job [] g time_ms now st) as [[id st1] th] eqn:Hc.
  destruct (create_job_spec _ _ _ _ _ _ _ _ Hc)
    as (-> & -> & Hfresh & Hjobs & Hnew & _).
  exists st1, (fresh (dom (heap st))), (new_job (make_job_id time_ms) [] g now).
  split; [done|]. split; [done|].
  split; [by rewrite Hjobs, lookup_insert_eq|]. by split.
Qed.

(** C10.  A job created with no URL is registered, and its worker goes from
    the start to the head of the loop and from there, the list being empty,
    straight to the final bookkeeping: the body runs for no URL.  The record
    ends completed with all counters zero, no result, no error, no current
    URL, and its completion time set. *)
Theorem empty_job_completes (w : World) g time_ms now st :
  ∃ id st1 th l st1' st2 j,
    create_job [] g time_ms now st = (id, st1, th) ∧
    jobs st1 !! id = Some l ∧
    worker_step w (th, st1) = Some (at_loop l g 1 [], st1') ∧
    worker_step w (at_loop l g 1 [], st1') = Some (finished, st2) ∧
    _process_job w id st1 = Some st2 ∧
    record_of st2 id = Some j ∧
    status j = Completed ∧
    total j = 0 ∧ completed j = 0 ∧ successful j = 0 ∧ failed j = 0 ∧
    results j = [] ∧ errors j = [] ∧
    current_url j = None ∧
    completed_at j = Some (datetime_now w).
Proof.
  destruct (create_job [] g time_ms now st) as [[id st1] th] eqn:Hc.
  destruct (create_job_spec _ _ _ _ _ _ _ _ Hc)
    as (-> & -> & Hfresh & Hjobs & Hnew & _).
  set (id := make_job_id time_ms) in *.
  set (l := fresh (dom (heap st))) in *.
  assert (jobs st1 !! id = Some l) as Hid by (by rewrite Hjobs, lookup_insert_eq).
  exists id, st1, (at_start id), l, (update l mark_processing st1),
    (update l (mark_completed (datetime_now w)) (update l mark_processing st1)),
    (final_record w (new_job id [] g now)).
  split; [done|]. split; [done|].
  split; [by unfold worker_step; rewrite Hid, Hnew|].
  split; [done|].
  split; [by unfold _process_job; rewrite Hid, Hnew|].
  split; [|by repeat split].
  unfold record_of. rewrite !jobs_update, Hid. simpl.
  unfold final_record. simpl.
  by do 2 apply deref_update_eq.
Qed.

(** ** What get_job_status hands out *)

(** No step of a worker changes the table. *)
Lemma worker_step_jobs (w : World) pc st pc' st' :
  step w (pc, st) (pc', st') → jobs st' = jobs st.
Proof.
  unfold step, worker_step. intros H.
  destruct pc as [id|l g idx [|url rest]|l g idx url rest|]; simplify_eq; try done.
  destruct (jobs st !! id) as [l|]; [|by simplify_eq].
  destruct (deref st l); by simplify_eq/=.
Qed.

(** C5, as stated, fails.  The value returned for a queued job shows
    [Processing] after the worker's first step, and an assignment made through
    it is an assignment to the record of the table. *)
Lemma get_job_status_not_a_copy :
  get_job_status "job_1700" sample_created = Some 1%positive ∧
  status <$> deref sample_created 1%positive = Some Queued ∧
  status <$> deref
    (run_steps world_second_fails 1 (at_start "job_1700", sample_created)).2
    1%positive = Some Processing ∧
  status <$> record_of sample_created "job_1700" = Some Queued ∧
  status <$> record_of (update 1%positive (mark_completed 0) sample_created)
    "job_1700" = Some Completed.
Proof. by vm_compute. Qed.

(** C5, amended.  For a known id, [get_job_status] returns the reference
    stored in the table, the one the worker writes through, and no copy: an
    update made through the returned reference is an update of the record of
    the table, and after any step of any worker the reference is still the one
    of the table, so that it reads the record as the worker left it. *)
Theorem get_job_status_live_reference id st l :
  get_job_status id st = Some l →
  jobs st !! id = Some l ∧
  (∀ f, record_of (update l f st) id = f <$> deref st l) ∧
  (∀ w pc pc' st',
      step w (pc, st) (pc', st') →
      get_job_status id st' = Some l ∧ record_of st' id = deref st' l) ∧
  (∀ w j,
      deref st l = Some j →
      ∃ pc' st',
        step w (at_start id, st) (pc', st') ∧
        deref st' l = Some (mark_processing j)) ∧
  (∀ w g idx url rest j,
      deref st l = Some j →
      ∃ st',
        step w (at_loop l g idx (url :: rest), st) (in_body l g idx url rest, st') ∧
        deref st' l = Some (begin_url url idx j)).
Proof.
  unfold get_job_status. intros Hl. split; [done|]. split; [|split; [|split]].
  - intros f. rewrite (record_of_update _ _ _ _ Hl).
    unfold record_of. by rewrite Hl.
  - intros w pc pc' st' Hstep.
    rewrite (worker_step_jobs _ _ _ _ _ Hstep).
    unfold record_of. rewrite (worker_step_jobs _ _ _ _ _ Hstep), Hl. done.
  - intros w j Hj. eexists _, _. split.
    + unfold step, worker_step. rewrite Hl, Hj. reflexivity.
    + by apply deref_update_eq.
  - intros w g idx url rest j Hj. eexists. split; [reflexivity|].
    by apply deref_update_eq.
Qed.

Lemma get_job_status_live_reference_witness :
  get_job_status "job_1700" sample_created = Some 1%positive ∧
  ∀ f, record_of (update 1%positive f sample_created) "job_1700"
       = f <$> deref sample_created 1%positive.
Proof.
  split; [reflexivity|].
  apply (get_job_status_live_reference "job_1700" sample_created 1%positive).
  reflexivity.
Defined.

(** ** Job ids *)

Lemma make_job_id_inj : Inj (=) (=) make_job_id.
Proof.
  intros a b H. unfold make_job_id in H.
  apply String.app_inj in H. by apply (inj pretty) in H.
Qed.

(** C6, as stated, fails: two calls that read the same millisecond get the
    same id, and the table then holds one record, the second. *)
Lemma job_id_reused_within_a_millisecond :
  (create_job ["B"] false 1700 200
     (create_job ["A"] false 1700 100 init).1.2).1.1
  = (create_job ["A"] false 1700 100 init).1.1 ∧
  size (jobs (create_job ["B"] false 1700 200
                (create_job ["A"] false 1700 100 init).1.2).1.2) = 1 ∧
  urls <$> record_of
    (create_job ["B"] false 1700 200
       (create_job ["A"] false 1700 100 init).1.2).1.2 "job_1700"
  = Some ["B"].
Proof. by vm_compute. Qed.

(** C6, amended.  The id is made from the clock reading in whole
    milliseconds, and from nothing else: two calls, whenever and on whatever
    table they are made, get the same id exactly when they read the same
    millisecond.  Of two calls in a row, when the readings
    differ the table holds both records, each under its id, as two objects;
    when they are equal the table holds the second record under the common id
    and the first record is no longer in the table. *)
Theorem job_ids_follow_the_clock urls1 g1 ms1 now1 urls2 g2 ms2 now2
    st id1 st1 th1 id2 st2 th2 :
  create_job urls1 g1 ms1 now1 st = (id1, st1, th1) →
  create_job urls2 g2 ms2 now2 st1 = (id2, st2, th2) →
  (∀ urls' g' ms' now' st',
      (create_job urls' g' ms' now' st').1.1 = id1 ↔ ms' = ms1) ∧
  (id1 = id2 ↔ ms1 = ms2) ∧
  ∃ l1 l2,
    l1 ≠ l2 ∧
    deref st2 l1 = Some (new_job id1 urls1 g1 now1) ∧
    deref st2 l2 = Some (new_job id2 urls2 g2 now2) ∧
    jobs st2 !! id2 = Some l2 ∧
    (ms1 ≠ ms2 → jobs st2 !! id1 = Some l1) ∧
    (ms1 = ms2 → jobs st2 = <[id2 := l2]> (jobs st)).
Proof.
  intros H1 H2.
  destruct (create_job_spec _ _ _ _ _ _ _ _ H1)
    as (-> & _ & Hf1 & Hjobs1 & Hnew1 & Hoth1).
  destruct (create_job_spec _ _ _ _ _ _ _ _ H2)
    as (-> & _ & Hf2 & Hjobs2 & Hnew2 & Hoth2).
  split.
  { intros urls' g' ms' now' st'. simpl.
    split; [apply make_job_id_inj|by intros ->]. }
  split.
  { split; [apply make_job_id_inj|by intros ->]. }
  exists (fresh (dom (heap st))), (fresh (dom (heap st1))).
  assert (fresh (dom (heap st)) ≠ fresh (dom (heap st1))) as Hne.
  { intros Heq. rewrite <- Heq in Hf2. congruence. }
  split; [done|].
  split; [by rewrite Hoth2, Hnew1|].
  split; [done|].
  split; [by rewrite Hjobs2, lookup_insert_eq|].
  split.
  - intros Hms. rewrite Hjobs2, lookup_insert_ne, Hjobs1, lookup_insert_eq; [done|].
    intros Heq. by apply make_job_id_inj in Heq.
  - intros ->. by rewrite Hjobs2, Hjobs1, insert_insert_eq.
Qed.

Lemma job_ids_follow_the_clock_witness :
  (create_job ["A"] false 1700 100 init).1.1
  = (create_job ["B"] true 1700 200
       (create_job ["A"] false 1700 100 init).1.2).1.1
  ↔ 1700%Z = 1700%Z.
Proof.
  destruct (job_ids_follow_the_clock ["A"] false 1700 100 ["B"] true 1700 200
              init "job_1700" (create_job ["A"] false 1700 100 init).1.2
              (at_start "job_1700") "job_1700"
              (create_job ["B"] true 1700 200
                 (create_job ["A"] false 1700 100 init).1.2).1.2
              (at_start "job_1700") eq_refl eq_refl) as (_ & Hiff & _).
  exact Hiff.
Defined.

(** ** Order of the results *)

(** The results of a finished job are the outcomes of its URLs, one for each
    URL and in the order of submission. *)
Lemma results_follow_submission_order (w : World) urls g time_ms now st
    id st1 th :
  create_job urls g time_ms now st = (id, st1, th) →
  ∃ st2 j,
    _process_job w id st1 = Some st2 ∧
    record_of st2 id = Some j ∧
    results j = outcomes_from w g 1 urls ∧
    outcome_url <$> results j = urls ∧
    errors j = results j ≫= error_entry.
Proof.
  intros Hc.
  destruct (created_job_runs w _ _ _ _ _ _ _ _ Hc) as (st2 & Hrun & _ & Hrec).
  exists st2, (final_record w (new_job id urls g now)).
  destruct (final_record_fields w (new_job id urls g now))
    as (_ & _ & _ & _ & _ & Hres & Herr & _).
  split; [done|]. split; [done|]. rewrite Herr, Hres. simpl.
  split; [done|]. by rewrite outcomes_from_urls.
Qed.

(** Where [urlparse] and [os.makedirs] return for [A] and [C], the batch
    [A, B, C] with a failing diagnosis of [B] ends as expected, whatever the
    generator and the write do. *)
Lemma scenario_ABC (w : World) A B C g time_ms now st id st1 th
    ra rc da dc msg :
  create_job [A; B; C] g time_ms now st = (id, st1, th) →
  diagnose_site (env w 1) = Ok ra →
  urlparse_domain (env w 1) = Ok da → os_makedirs (env w 1) = Ok () →
  diagnose_site (env w 2) = Raise msg →
  diagnose_site (env w 3) = Ok rc →
  urlparse_domain (env w 3) = Ok dc → os_makedirs (env w 3) = Ok () →
  ∃ st2 j ra' rc',
    _process_job w id st1 = Some st2 ∧
    record_of st2 id = Some j ∧
    results j = [success A ra'; error B msg; success C rc'] ∧
    errors j = [mkErrorEntry B msg] ∧
    successful j = 2 ∧ failed j = 1 ∧ completed j = 3 ∧
    status j = Completed.
Proof.
  intros Hc Ha Hda Hma Hb Hcc Hdc Hmc.
  destruct (created_job_runs w _ _ _ _ _ _ _ _ Hc) as (st2 & Hrun & _ & Hrec).
  destruct (final_record_fields w (new_job id [A; B; C] g now))
    as (Hst & _ & _ & _ & _ & Hres & Herr & Hsucc & Hfail & Hcompl).
  exists st2, (final_record w (new_job id [A; B; C] g now)).
  revert Hres Herr Hsucc Hfail Hcompl. simpl. unfold outcome_at.
  rewrite (diagnose_url_ok _ _ _ _ Ha Hda Hma), (diagnose_url_raise _ _ _ Hb),
    (diagnose_url_ok _ _ _ _ Hcc Hdc Hmc).
  intros Hres Herr Hsucc Hfail Hcompl.
  eexists _, _. repeat (split; [done|]). done.
Qed.

(** C7, at a failing input.  The batch [A, B, C], the diagnosis succeeding on
    [A] and [C] and failing on [B], in a working directory where [results]
    cannot be created: [os.makedirs] is called outside the handler of the
    save, its exception reaches the handler of the loop, and [A] and [C] are
    recorded as errors. *)
Theorem scenario_ABC_without_results_directory :
  diagnose_site (env world_no_dir 1) = Ok sample_payload ∧
  diagnose_site (env world_no_dir 2) = Raise "net::ERR_NAME_NOT_RESOLVED" ∧
  diagnose_site (env world_no_dir 3) = Ok sample_payload ∧
  ∃ st2 j,
    _process_job world_no_dir "job_1700" sample_created = Some st2 ∧
    record_of st2 "job_1700" = Some j ∧
    results j = [error "A" "[Errno 13] Permission denied: 'results'";
                 error "B" "net::ERR_NAME_NOT_RESOLVED";
                 error "C" "[Errno 13] Permission denied: 'results'"] ∧
    successful j = 0 ∧ failed j = 3 ∧ completed j = 3 ∧
    status j = Completed.
Proof. do 3 (split; [reflexivity|]). do 2 eexists. by vm_compute. Qed.

(** ** Failures after a successful diagnosis *)

(** Failures of the observation generator and of the write are caught: where
    [urlparse] and [os.makedirs] return, a successful diagnosis is recorded as
    a success, and a failed write is flagged in its payload. *)
Lemma success_survives_caught_failures e g idx url j payload domain :
  diagnose_site e = Ok payload →
  urlparse_domain e = Ok domain →
  os_makedirs e = Ok () →
  ∃ result,
    record_outcome e g idx url j = record_success url result idx j ∧
    (∀ msg, json_dump e = Raise msg →
       result !! "saved" = Some (PyBool false) ∧
       result !! "save_error" = Some (PyStr msg)) ∧
    (json_dump e = Ok () →
       result !! "saved" = Some (PyBool true) ∧
       result !! "output_file" = Some (PyStr (diagnosis_filename domain))) ∧
    (∀ msg, generate_technical_observation e = Raise msg →
       result !! "technical_observation" = payload !! "technical_observation").
Proof.
  intros Hd Hu Hm. eexists. split.
  { rewrite record_outcome_unfold.
    by rewrite (diagnose_url_ok _ _ _ _ Hd Hu Hm). }
  unfold save_result, add_observation. split; [|split].
  - intros msg ->. simpl.
    by rewrite lookup_insert_ne, lookup_insert_eq, lookup_insert_eq.
  - intros ->. simpl.
    by rewrite lookup_insert_eq, lookup_insert_ne, lookup_insert_eq.
  - intros msg ->. simpl.
    rewrite Tauto.if_same.
    destruct (json_dump e); simpl; by rewrite !lookup_insert_ne.
Qed.

(** A failure of [os.makedirs] is not caught by the handler of the save: it
    makes the outcome an error. *)
Lemma makedirs_failure_recorded_as_error e g idx url j payload domain msg :
  diagnose_site e = Ok payload →
  urlparse_domain e = Ok domain →
  os_makedirs e = Raise msg →
  record_outcome e g idx url j = record_error url msg idx j.
Proof.
  intros Hd Hu Hm. rewrite record_outcome_unfold.
  unfold diagnose_url. by rewrite Hd, Hu, Hm.
Qed.

(** C8, at a failing input.  The diagnosis of the one URL succeeds, then
    [os.makedirs('results', exist_ok=True)] raises: the outcome recorded is an
    error, and it is counted in [failed]. *)
Theorem success_lost_without_results_directory :
  diagnose_site (env world_no_dir 1) = Ok sample_payload ∧
  ∃ st2 j,
    _process_job world_no_dir "job_1700"
      (create_job ["https://example.com"] false 1700 100 init).1.2 = Some st2 ∧
    record_of st2 "job_1700" = Some j ∧
    results j = [error "https://example.com"
                   "[Errno 13] Permission denied: 'results'"] ∧
    errors j = [mkErrorEntry "https://example.com"
                  "[Errno 13] Permission denied: 'results'"] ∧
    successful j = 0 ∧ failed j = 1.
Proof. split; [reflexivity|]. do 2 eexists. by vm_compute. Qed.

(** ** Well-formedness is kept by every operation *)

Lemma wf_init : wf init.
Proof. intros id l H. simpl in H. by rewrite lookup_empty in H. Qed.

Lemma wf_update l f st :
  (∀ j, job_ok j → job_ok (f j)) → wf st → wf (update l f st).
Proof.
  intros Hf Hwf id l' Hid. rewrite jobs_update in Hid.
  destruct (Hwf id l' Hid) as (j & Hj & Hok).
  rewrite deref_update. case_decide as Hl.
  - exists (f j). rewrite Hj. split; [done|by apply Hf].
  - by exists j.
Qed.

Lemma job_ok_mark_processing j : job_ok j → job_ok (mark_processing j).
Proof. by intros _ H. Qed.

Lemma job_ok_begin_url url idx j : job_ok j → job_ok (begin_url url idx j).
Proof. by intros H. Qed.

Lemma job_ok_record_outcome e g idx url j :
  job_ok j → job_ok (record_outcome e g idx url j).
Proof.
  intros H. rewrite record_outcome_unfold. by destruct (diagnose_url e g).
Qed.

Lemma job_ok_mark_completed now j : job_ok (mark_completed now j).
Proof. by intros _; eexists. Qed.

Lemma wf_create_job urls g time_ms now st id st1 th :
  create_job urls g time_ms now st = (id, st1, th) → wf st → wf st1.
Proof.
  intros Hc Hwf id' l' Hid'.
  destruct (create_job_spec _ _ _ _ _ _ _ _ Hc)
    as (_ & _ & Hfresh & Hjobs & Hnew & Hoth).
  rewrite Hjobs in Hid'. apply lookup_insert_Some in Hid' as [[_ <-]|[_ Hid']].
  - eexists. split; [exact Hnew|]. by intros H.
  - destruct (Hwf id' l' Hid') as (j & Hj & Hok). exists j. split; [|done].
    rewrite Hoth; [done|]. intros <-. congruence.
Qed.

Lemma wf_worker_step (w : World) c c' : step w c c' → wf c.2 → wf c'.2.
Proof.
  destruct c as [pc st]. unfold step, worker_step. simpl. intros H Hwf.
  destruct pc as [id|l g idx [|url rest]|l g idx url rest|]; simplify_eq/=.
  - destruct (jobs st !! id) as [l|]; [|by simplify_eq].
    destruct (deref st l); simplify_eq/=.
    apply wf_update; auto using job_ok_mark_processing.
  - apply wf_update; auto using job_ok_mark_completed.
  - apply wf_update; auto using job_ok_begin_url.
  - apply wf_update; auto using job_ok_record_outcome.
Qed.

Lemma wf_rtc (w : World) c c' : rtc (step w) c c' → wf c.2 → wf c'.2.
Proof.
  induction 1 as [|c1 c2 c3 H12 _ IH]; [done|].
  intros Hwf. apply IH. by eapply wf_worker_step.
Qed.

Lemma wf_sample_finished : wf sample_finished.
Proof.
  apply (wf_rtc world_second_fails (at_start "job_1700", sample_created)
           (run_steps world_second_fails 8 (at_start "job_1700", sample_created))).
  - apply run_steps_rtc.
  - eapply (wf_create_job ["A"; "B"; "C"] true 1700 100 init);
      [reflexivity|apply wf_init].
Qed.

(** ** The age test *)

Lemma Qgtb_true a b : Qgtb a b = true ↔ (b < a)%Q.
Proof.
  unfold Qgtb. destruct (Qlt_le_dec b a) as [H|H]; split; try done.
  intros H'. by apply Qle_not_lt in H.
Qed.

(** The comparison in hours is the comparison in microseconds. *)
Lemma age_hours_gt max_age_hours current_time t :
  (inject_Z max_age_hours < age_hours current_time t)%Q ↔
  (max_age_hours * 3600000000 < current_time - t)%Z.
Proof.
  unfold age_hours, Qlt, Qdiv, Qmult, Qinv, inject_Z. simpl. lia.
Qed.

Lemma expired_spec max_age_hours current_time j :
  job_ok j →
  ∃ b, expired max_age_hours current_time j = Ok b ∧
       (b = true ↔ aged_out max_age_hours current_time j).
Proof.
  intros Hok. unfold expired, aged_out. case_decide as Hst.
  - destruct (Hok Hst) as [t Ht]. rewrite Ht. eexists. split; [done|].
    rewrite Qgtb_true. split.
    + intros Hlt. split; [done|]. by exists t.
    + intros (_ & t' & [= <-] & Hlt). done.
  - exists false. split; [done|]. split; [done|]. by intros [? _].
Qed.

(** ** The scan and the removal *)

Lemma scan_spec max_age_hours current_time st items :
  (∀ id l, (id, l) ∈ items → ∃ j, deref st l = Some j ∧ job_ok j) →
  ∃ ks, scan max_age_hours current_time st items = Ok ks ∧
        ks `sublist_of` items.*1 ∧
        ∀ id, id ∈ ks ↔
              ∃ l j, (id, l) ∈ items ∧ deref st l = Some j ∧
                     aged_out max_age_hours current_time j.
Proof.
  induction items as [|[id l] items IH]; intros Hall.
  - exists []. split; [done|]. split; [done|].
    intros id. split; [by intros ?%elem_of_nil|].
    by intros (l & j & ?%elem_of_nil & _).
  - destruct IH as (ks & Hks & Hsub & Hmem).
    { intros id' l' Hin. apply (Hall id' l'). by right. }
    destruct (Hall id l) as (j & Hj & Hok); [by left|].
    destruct (expired_spec max_age_hours current_time j Hok) as (b & Hb & Hbspec).
    exists (if b then id :: ks else ks).
    split; [simpl; by rewrite Hj; simpl; rewrite Hb; simpl; rewrite Hks|].
    split.
    { simpl. destruct b; [by apply sublist_skip|by apply sublist_cons]. }
    intros id'. destruct b.
    + rewrite elem_of_cons, Hmem. split.
      * intros [->|(l' & j' & Hin & Hj' & Hold)].
        -- exists l, j. split; [by left|]. split; [done|]. by apply Hbspec.
        -- exists l', j'. split; [by right|]. done.
      * intros (l' & j' & Hin & Hj' & Hold).
        apply elem_of_cons in Hin as [[= -> ->]|Hin]; [by left|].
        right. by exists l', j'.
    + rewrite Hmem. split.
      * intros (l' & j' & Hin & Hj' & Hold).
        exists l', j'. split; [by right|]. done.
      * intros (l' & j' & Hin & Hj' & Hold).
        apply elem_of_cons in Hin as [[= -> ->]|Hin].
        -- rewrite Hj in Hj'. injection Hj' as <-.
           apply Hbspec in Hold. discriminate.
        -- by exists l', j'.
Qed.

Lemma lookup_delete_all ks : ∀ (m : gmap string positive) id,
  delete_all ks m !! id = if decide (id ∈ ks) then None else m !! id.
Proof.
  induction ks as [|k ks IH]; intros m id.
  - rewrite decide_False; [done|]. apply not_elem_of_nil.
  - change (delete_all (k :: ks) m) with (delete_all ks (delete k m)).
    rewrite IH. destruct (decide (id ∈ ks)) as [Hin|Hin].
    + rewrite decide_True; [done|]. by right.
    + destruct (decide (id = k)) as [->|Hne].
      * rewrite lookup_delete_eq. rewrite decide_True; [done|]. by left.
      * rewrite lookup_delete_ne by done.
        rewrite decide_False; [done|]. rewrite elem_of_cons. tauto.
Qed.

Lemma size_delete_all ks : ∀ (m : gmap string positive),
  NoDup ks → (∀ k, k ∈ ks → is_Some (m !! k)) →
  size (delete_all ks m) + length ks = size m.
Proof.
  induction ks as [|k ks IH]; intros m Hnd Hin; [simpl; lia|].
  change (delete_all (k :: ks) m) with (delete_all ks (delete k m)).
  apply NoDup_cons in Hnd as [Hk Hnd].
  simpl length. rewrite Nat.add_succ_r, IH; [|done|].
  - destruct (Hin k) as [x Hx]; [by left|].
    rewrite map_size_delete, Hx. simpl.
    assert (size m ≠ 0); [|lia].
    apply map_size_non_empty_iff. intros ->. by rewrite lookup_empty in Hx.
  - intros k' Hk'. rewrite lookup_delete_ne; [apply Hin; by right|].
    by intros ->.
Qed.

(** The scan of a well-formed table returns the ids of the records due for
    removal, each once. *)
Lemma scan_table max_age_hours current_time st :
  wf st →
  ∃ ks, scan max_age_hours current_time st (map_to_list (jobs st)) = Ok ks ∧
        NoDup ks ∧
        ∀ id, id ∈ ks ↔
              ∃ l j, jobs st !! id = Some l ∧ deref st l = Some j ∧
                     aged_out max_age_hours current_time j.
Proof.
  intros Hwf.
  destruct (scan_spec max_age_hours current_time st (map_to_list (jobs st)))
    as (ks & Hks & Hsub & Hmem).
  { intros id l Hin. apply elem_of_map_to_list in Hin. by apply (Hwf id). }
  exists ks. split; [done|]. split.
  - apply (sublist_NoDup _ _ (NoDup_fst_map_to_list (jobs st)) Hsub).
  - intros id. rewrite Hmem. by setoid_rewrite elem_of_map_to_list.
Qed.

Lemma cleanup_old_jobs_unfold max_age_hours current_time st :
  wf st →
  ∃ ks,
    cleanup_old_jobs max_age_hours current_time st
      = Ok ({| heap := heap st; jobs := delete_all ks (jobs st) |},
            cleanup_message ks, PyNone) ∧
    NoDup ks ∧
    ∀ id, id ∈ ks ↔
          ∃ l j, jobs st !! id = Some l ∧ deref st l = Some j ∧
                 aged_out max_age_hours current_time j.
Proof.
  intros Hwf.
  destruct (scan_table max_age_hours current_time st Hwf) as (ks & Hks & Hnd & Hmem).
  exists ks. split; [|done]. unfold cleanup_old_jobs. by rewrite Hks.
Qed.

(** ** What the sweeper removes *)

(** C4.  On a well-formed processor [cleanup_old_jobs] returns, leaves the
    objects alone, and keeps in the table exactly the entries whose record is
    not both completed and older than [max_age_hours]: an entry whose record is
    queued or processing stays whatever its age, a completed one stays when
    its age is at most [max_age_hours] (equality included) and goes when its
    age is greater.  Ages are compared exactly. *)
Theorem cleanup_removes_exactly max_age_hours current_time st :
  wf st →
  ∃ st' out,
    cleanup_old_jobs max_age_hours current_time st = Ok (st', out, PyNone) ∧
    heap st' = heap st ∧
    (∀ id l,
        jobs st' !! id = Some l ↔
        jobs st !! id = Some l ∧
        ∀ j, deref st l = Some j → ¬ aged_out max_age_hours current_time j) ∧
    (∀ id l j,
        jobs st !! id = Some l → deref st l = Some j →
        (status j = Queued ∨ status j = Processing →
         jobs st' !! id = Some l) ∧
        (∀ t, status j = Completed → completed_at j = Some t →
           ((current_time - t ≤ max_age_hours * 3600000000)%Z →
            jobs st' !! id = Some l) ∧
           ((max_age_hours * 3600000000 < current_time - t)%Z →
            jobs st' !! id = None))).
Proof.
  intros Hwf.
  destruct (cleanup_old_jobs_unfold max_age_hours current_time st Hwf)
    as (ks & Hrun & _ & Hmem).
  eexists _, _. split; [exact Hrun|]. simpl. split; [done|].
  assert (∀ id l, jobs st !! id = Some l →
            (∀ j, deref st l = Some j →
                  ¬ aged_out max_age_hours current_time j) →
            delete_all ks (jobs st) !! id = Some l) as Hkeep.
  { intros id l Hid Hnot. rewrite lookup_delete_all, decide_False; [done|].
    intros (l' & j & Hid' & Hj & Hold)%Hmem.
    rewrite Hid in Hid'. injection Hid' as <-. by apply (Hnot j). }
  split.
  - intros id l. split; [|intros [? ?]; by apply Hkeep].
    rewrite lookup_delete_all. case_decide as Hin; [done|].
    intros Hid. split; [done|]. intros j Hj Hold. apply Hin, Hmem.
    by exists l, j.
  - intros id l j Hid Hj. split.
    + intros Hst. apply Hkeep; [done|]. intros j' Hj' [Hc _].
      rewrite Hj in Hj'. injection Hj' as <-. rewrite Hc in Hst.
      by destruct Hst.
    + intros t Hst Ht. split.
      * intros Hage. apply Hkeep; [done|].
        intros j' Hj' (_ & t' & Ht' & Hlt).
        rewrite Hj in Hj'. injection Hj' as <-.
        rewrite Ht in Ht'. injection Ht' as <-.
        apply age_hours_gt in Hlt. lia.
      * intros Hage. rewrite lookup_delete_all, decide_True; [done|].
        apply Hmem. exists l, j. split; [done|]. split; [done|].
        split; [done|]. exists t. split; [done|]. by apply age_hours_gt.
Qed.

Lemma cleanup_removes_exactly_witness :
  wf sample_finished ∧
  ∃ st' out,
    cleanup_old_jobs 1 (5000000 + 3600000000) sample_finished
      = Ok (st', out, PyNone) ∧
    heap st' = heap sample_finished ∧
    jobs st' !! "job_1700" = Some 1%positive.
Proof.
  split; [exact wf_sample_finished|].
  destruct (cleanup_removes_exactly 1 (5000000 + 3600000000) sample_finished
              wf_sample_finished) as (st' & out & Hrun & Hheap & _ & Hcases).
  exists st', out. split; [exact Hrun|]. split; [exact Hheap|].
  destruct (Hcases "job_1700" 1%positive
              (final_record world_second_fails
                 (new_job "job_1700" ["A"; "B"; "C"] true 100))
              eq_refl eq_refl) as [_ Hdone].
  destruct (Hdone 5000000%Z eq_refl eq_refl) as [Hkeep _].
  apply Hkeep. vm_compute. discriminate.
Defined.

(** ** What the sweeper returns *)

(** C9, as stated, fails: a call that removes one record returns [None]. *)
Lemma cleanup_returns_no_count :
  ∃ st',
    cleanup_old_jobs 0 5000001 sample_finished
      = Ok (st', ["Cleaned up 1 old jobs"], PyNone) ∧
    size (jobs sample_finished) = 1 ∧
    size (jobs st') = 0 ∧
    PyNone ≠ PyInt 1.
Proof. eexists. by vm_compute. Qed.

(** C9, amended.  [cleanup_old_jobs] has no return value: whenever it
    returns, the caller gets [None].  The number of records removed is only
    printed, in one line, and only when it is not zero. *)
Theorem cleanup_prints_count max_age_hours current_time st :
  (∀ st' out v,
      cleanup_old_jobs max_age_hours current_time st = Ok (st', out, v) →
      v = PyNone) ∧
  (wf st →
   ∃ st' removed,
     cleanup_old_jobs max_age_hours current_time st
       = Ok (st',
             match removed with
             | 0 => []
             | _ => ["Cleaned up " +:+ pretty removed +:+ " old jobs"]
             end,
             PyNone) ∧
     size (jobs st') + removed = size (jobs st)).
Proof.
  split.
  - intros st' out v. unfold cleanup_old_jobs.
    destruct (scan _ _ _ _); simpl; [|done]. by intros [= _ _ <-].
  - intros Hwf.
    destruct (cleanup_old_jobs_unfold max_age_hours current_time st Hwf)
      as (ks & Hrun & Hnd & Hmem).
    eexists _, (length ks). split.
    + rewrite Hrun. by destruct ks.
    + simpl. apply size_delete_all; [done|].
      intros k (l & j & Hk & _)%Hmem. by exists l.
Qed.

Lemma cleanup_prints_count_witness :
  wf sample_finished ∧
  ∃ st' removed,
    cleanup_old_jobs 0 5000001 sample_finished
      = Ok (st',
            match removed with
            | 0 => []
            | _ => ["Cleaned up " +:+ pretty removed +:+ " old jobs"]
            end,
            PyNone) ∧
    size (jobs st') + removed = size (jobs sample_finished).
Proof.
  split; [exact wf_sample_finished|].
  apply (cleanup_prints_count 0 5000001 sample_finished).
  exact wf_sample_finished.
Defined.

(** * Further properties of the processor *)

(** ** Lookup after creation *)

(** A processor just built knows no job, and the id returned by [create_job]
    is answered by [get_job_status] with a reference to the new record, as
    initialised on lines 36-50; the answers for all other ids, and all the
    objects there were, are as before. *)
Theorem create_then_get_job_status batch g time_ms now st id st1 th :
  create_job batch g time_ms now st = (id, st1, th) →
  (∀ id', get_job_status id' init = None) ∧
  ∃ l j,
    get_job_status id st1 = Some l ∧
    deref st l = None ∧
    deref st1 l = Some j ∧
    job_id j = id ∧ urls j = batch ∧ total j = length batch ∧
    status j = Queued ∧
    completed j = 0 ∧ successful j = 0 ∧ failed j = 0 ∧
    results j = [] ∧ errors j = [] ∧
    current_url j = None ∧ completed_at j = None ∧
    started_at j = now ∧ generate_observations j = g ∧
    (∀ id', id' ≠ id → get_job_status id' st1 = get_job_status id' st) ∧
    (∀ l' j', deref st l' = Some j' → deref st1 l' = Some j').
Proof.
  intros Hc. split; [intros id'; apply lookup_empty|].
  destruct (create_job_spec _ _ _ _ _ _ _ _ Hc)
    as (Hid & _ & Hfresh & Hjobs & Hnew & Hoth).
  exists (fresh (dom (heap st))), (new_job id batch g now).
  unfold get_job_status. rewrite Hjobs, lookup_insert_eq.
  repeat (split; [done|]). split.
  - intros id' Hne. by rewrite lookup_insert_ne.
  - intros l' j' Hj'. rewrite Hoth; [done|]. intros <-. congruence.
Qed.

Lemma create_then_get_job_status_witness :
  ∃ l j,
    get_job_status "job_1700" sample_created = Some l ∧
    deref init l = None ∧
    deref sample_created l = Some j ∧
    job_id j = "job_1700" ∧ urls j = ["A"; "B"; "C"] ∧ total j = 3.
Proof.
  destruct (create_then_get_job_status ["A"; "B"; "C"] true 1700 100 init
              "job_1700" sample_created (at_start "job_1700") eq_refl)
    as (_ & l & j & H1 & H2 & H3 & H4 & H5 & H6 & _).
  by exists l, j.
Defined.

(** ** What a worker changes *)

(** The effect of one step: the table and all objects but the worker's own
    are untouched; in its own record the fields set at creation stay, and
    progress only goes forward. *)
Lemma worker_step_effect (w : World) id l n c c' :
  worker_inv id l n c → step w c c' →
  jobs c'.2 = jobs c.2 ∧
  (∀ l', l' ≠ l → deref c'.2 l' = deref c.2 l') ∧
  ∃ j j',
    deref c.2 l = Some j ∧ deref c'.2 l = Some j' ∧
    job_id j' = job_id j ∧ urls j' = urls j ∧ total j' = total j ∧
    started_at j' = started_at j ∧
    generate_observations j' = generate_observations j ∧
    completed j ≤ completed j' ∧
    results j `prefix_of` results j' ∧
    status_rank (status j) ≤ status_rank (status j').
Proof.
  destruct c as [pc st]. intros [Hid (j & Hj & Hn & Hpc)] Hstep.
  unfold step, worker_step in Hstep. simpl in Hid, Hj, Hpc. simpl.
  destruct pc as [id'|l' g idx [|url rest]|l' g idx url rest|].
  - destruct Hpc as (-> & Hst & Htot & Hc & Hs & Hf).
    rewrite Hid, Hj in Hstep. simpl in Hstep. injection Hstep as <-. simpl.
    split; [done|]. split; [intros l' Hne; by apply deref_update_ne|].
    exists j, (mark_processing j).
    split; [done|]. split; [by apply deref_update_eq|].
    simpl. rewrite Hst. repeat split; try done; simpl; lia.
  - destruct Hpc as (-> & Hst & Hidx & Htot & Hc & Hsf).
    injection Hstep as <-. simpl.
    split; [done|]. split; [intros l' Hne; by apply deref_update_ne|].
    exists j, (mark_completed (datetime_now w) j).
    split; [done|]. split; [by apply deref_update_eq|].
    simpl. rewrite Hst. repeat split; try done; simpl; lia.
  - destruct Hpc as (-> & Hst & Hidx & Htot & Hc & Hsf).
    injection Hstep as <-. simpl.
    split; [done|]. split; [intros l' Hne; by apply deref_update_ne|].
    exists j, (begin_url url idx j).
    split; [done|]. split; [by apply deref_update_eq|].
    simpl. repeat split; try done; lia.
  - destruct Hpc as (-> & Hst & Hidx & Htot & Hc & Hsf).
    injection Hstep as <-. simpl.
    split; [done|]. split; [intros l' Hne; by apply deref_update_ne|].
    exists j, (record_outcome (env w idx) g idx url j).
    split; [done|]. split; [by apply deref_update_eq|].
    rewrite record_outcome_unfold.
    destruct (diagnose_url (env w idx) g); simpl;
      repeat split; try done; try lia; by apply prefix_app_r.
  - done.
Qed.

(** The same over any number of steps. *)
Lemma worker_run_effect (w : World) id l n c c' :
  worker_inv id l n c → rtc (step w) c c' →
  jobs c'.2 = jobs c.2 ∧
  (∀ l', l' ≠ l → deref c'.2 l' = deref c.2 l') ∧
  ∃ j j',
    deref c.2 l = Some j ∧ deref c'.2 l = Some j' ∧
    job_id j' = job_id j ∧ urls j' = urls j ∧ total j' = total j ∧
    started_at j' = started_at j ∧
    generate_observations j' = generate_observations j ∧
    completed j ≤ completed j' ∧
    results j `prefix_of` results j' ∧
    status_rank (status j) ≤ status_rank (status j').
Proof.
  intros Hinv Hsteps. revert Hinv.
  induction Hsteps as [c|c1 c2 c3 H12 _ IH]; intros Hinv.
  - split; [done|]. split; [done|].
    destruct Hinv as [_ (j & Hj & _)]. exists j, j. by repeat split.
  - destruct (worker_step_effect w id l n c1 c2 Hinv H12)
      as (Hjobs & Hoth & j1 & j2 & Hj1 & Hj2 & E1 & E2 & E3 & E4 & E5 & Hc & Hp & Hs).
    destruct (IH (worker_inv_step w id l n c1 c2 Hinv H12))
      as (Hjobs' & Hoth' & j2' & j3 & Hj2' & Hj3 & F1 & F2 & F3 & F4 & F5 & Hc' & Hp' & Hs').
    rewrite Hj2 in Hj2'. injection Hj2' as <-.
    split; [congruence|].
    split; [intros l' Hne; by rewrite Hoth', Hoth|].
    exists j1, j3. repeat split; try congruence; try lia.
    by transitivity (results j2).
Qed.

(** While its worker runs, a job keeps the id, the URLs, the total, the
    start time and the option it was created with; the worker writes to no
    other record and never changes the table. *)
Theorem worker_keeps_to_its_record (w : World) batch g time_ms now st
    id st1 th c :
  create_job batch g time_ms now st = (id, st1, th) →
  rtc (step w) (th, st1) c →
  jobs c.2 = jobs st1 ∧
  ∃ l j,
    jobs st1 !! id = Some l ∧
    deref c.2 l = Some j ∧
    job_id j = id ∧ urls j = batch ∧ total j = length batch ∧
    started_at j = now ∧ generate_observations j = g ∧
    (∀ l', l' ≠ l → deref c.2 l' = deref st1 l').
Proof.
  intros Hc Hsteps.
  pose proof (worker_inv_init _ _ _ _ _ _ _ _ Hc) as Hinv.
  destruct (worker_run_effect w _ _ _ _ _ Hinv Hsteps)
    as (Hjobs & Hoth & j0 & j & Hj0 & Hj & E1 & E2 & E3 & E4 & E5 & _).
  destruct (create_job_spec _ _ _ _ _ _ _ _ Hc) as (_ & _ & _ & _ & Hnew & _).
  simpl in Hj0. rewrite Hnew in Hj0. injection Hj0 as <-.
  split; [done|]. exists (fresh (dom (heap st))), j.
  split; [apply Hinv|]. by repeat split.
Qed.

Lemma worker_keeps_to_its_record_witness :
  ∃ l j,
    jobs sample_created !! "job_1700" = Some l ∧
    deref (run_steps world_second_fails 4
             (at_start "job_1700", sample_created)).2 l = Some j ∧
    job_id j = "job_1700" ∧ urls j = ["A"; "B"; "C"].
Proof.
  destruct (worker_keeps_to_its_record world_second_fails ["A"; "B"; "C"] true
              1700 100 init "job_1700" sample_created (at_start "job_1700")
              (run_steps world_second_fails 4
                 (at_start "job_1700", sample_created))
              eq_refl (run_steps_rtc _ _ _))
    as (_ & l & j & H1 & H2 & H3 & H4 & _).
  by exists l, j.
Defined.

(** Between an earlier and a later point of the run of a job's worker, the
    record only moves forward: [completed] does not decrease, [results] is
    extended at its end, and the status does not go back. *)
Theorem progress_is_monotone (w : World) batch g time_ms now st id st1 th c c' :
  create_job batch g time_ms now st = (id, st1, th) →
  rtc (step w) (th, st1) c →
  rtc (step w) c c' →
  ∃ j j',
    record_of c.2 id = Some j ∧ record_of c'.2 id = Some j' ∧
    completed j ≤ completed j' ∧
    results j `prefix_of` results j' ∧
    status_rank (status j) ≤ status_rank (status j').
Proof.
  intros Hc Hsteps Hsteps'.
  pose proof (worker_inv_init _ _ _ _ _ _ _ _ Hc) as Hinv0.
  pose proof (worker_inv_rtc w _ _ _ _ _ Hinv0 Hsteps) as Hinv.
  pose proof (worker_inv_rtc w _ _ _ _ _ Hinv Hsteps') as Hinv'.
  destruct (worker_run_effect w _ _ _ _ _ Hinv Hsteps')
    as (_ & _ & j & j' & Hj & Hj' & _ & _ & _ & _ & _ & H1 & H2 & H3).
  exists j, j'. unfold record_of.
  destruct Hinv as [-> _]. destruct Hinv' as [-> _]. by simpl.
Qed.

Lemma progress_is_monotone_witness :
  ∃ j j',
    record_of (run_steps world_second_fails 3
                 (at_start "job_1700", sample_created)).2 "job_1700" = Some j ∧
    record_of (run_steps world_second_fails 8
                 (at_start "job_1700", sample_created)).2 "job_1700" = Some j' ∧
    completed j ≤ completed j' ∧
    results j `prefix_of` results j'.
Proof.
  destruct (progress_is_monotone world_second_fails ["A"; "B"; "C"] true
              1700 100 init "job_1700" sample_created (at_start "job_1700")
              (run_steps world_second_fails 3
                 (at_start "job_1700", sample_created))
              (run_steps world_second_fails 8
                 (at_start "job_1700", sample_created))
              eq_refl (run_steps_rtc _ _ _)
              (run_steps_rtc world_second_fails 5 _))
    as (j & j' & H1 & H2 & H3 & H4 & _).
  by exists j, j'.
Defined.

(** ** Results, errors and counters agree *)

Lemma filter_success_error_length (os : list Outcome) :
  length (filter is_success os) + length (filter is_error os) = length os.
Proof.
  induction os as [|o os IH]; [done|].
  destruct o as [url r|url m].
  - rewrite filter_cons_True by done.
    rewrite (filter_cons_False is_error) by (unfold is_error; simpl; tauto).
    simpl. lia.
  - rewrite filter_cons_False by (simpl; tauto).
    rewrite (filter_cons_True is_error) by done.
    simpl. lia.
Qed.

Lemma results_agree_step (w : World) id l n c c' j j' :
  worker_inv id l n c → step w c c' →
  deref c.2 l = Some j → deref c'.2 l = Some j' →
  results_agree c.1 j → results_agree c'.1 j'.
Proof.
  destruct c as [pc st]. intros [Hid (j0 & Hj0 & Hn & Hpc)] Hstep Hj Hj'.
  simpl in *. rewrite Hj in Hj0. injection Hj0 as <-.
  unfold step, worker_step in Hstep.
  intros (He & Hs & Hf & Hu).
  destruct pc as [id'|l' g idx [|url rest]|l' g idx url rest|].
  - destruct Hpc as (-> & _).
    rewrite Hid, Hj in Hstep. simpl in Hstep. injection Hstep as <-.
    simpl in *. rewrite (deref_update_eq _ _ _ _ Hj) in Hj'.
    injection Hj' as <-. by repeat split.
  - destruct Hpc as (-> & _). injection Hstep as <-.
    simpl in *. rewrite (deref_update_eq _ _ _ _ Hj) in Hj'.
    injection Hj' as <-. by repeat split.
  - destruct Hpc as (-> & _). injection Hstep as <-.
    simpl in *. rewrite (deref_update_eq _ _ _ _ Hj) in Hj'.
    injection Hj' as <-. by repeat split.
  - destruct Hpc as (-> & _). injection Hstep as <-.
    simpl in *. rewrite (deref_update_eq _ _ _ _ Hj) in Hj'.
    injection Hj' as <-. rewrite record_outcome_unfold.
    destruct (diagnose_url (env w idx) g) as [r|m]; unfold results_agree; simpl.
    + rewrite bind_app, !filter_app, !length_app, fmap_app. simpl.
      rewrite <- He, <- Hs, <- Hf, Hu, app_nil_r, <- app_assoc. simpl.
      repeat split; try done; lia.
    + rewrite bind_app, !filter_app, !length_app, fmap_app. simpl.
      rewrite <- He, <- Hs, <- Hf, Hu, <- app_assoc. simpl.
      repeat split; try done; lia.
  - done.
Qed.

Lemma results_agree_rtc (w : World) id l n c c' :
  worker_inv id l n c → rtc (step w) c c' →
  (∃ j, deref c.2 l = Some j ∧ results_agree c.1 j) →
  ∃ j', deref c'.2 l = Some j' ∧ results_agree c'.1 j'.
Proof.
  intros Hinv Hsteps. revert Hinv.
  induction Hsteps as [c|c1 c2 c3 H12 _ IH]; intros Hinv Hj; [done|].
  destruct Hj as (j & Hj & Hagree).
  pose proof (worker_inv_step w id l n c1 c2 Hinv H12) as Hinv2.
  apply IH; [done|].
  destruct Hinv2 as [H2 (j2 & Hj2 & Hrest)]. exists j2. split; [done|].
  eapply results_agree_step; eauto.
Qed.

(** At every point of the run of a job's worker, [errors] is the list of the
    error outcomes of [results] in the same order, [successful] and [failed]
    count the success and the error outcomes of [results], whose length is
    therefore their sum, and the outcomes recorded so far belong, one for one
    and in order, to the first URLs of the batch. *)
Theorem bookkeeping_agrees_with_results (w : World) batch g time_ms now st
    id st1 th c :
  create_job batch g time_ms now st = (id, st1, th) →
  rtc (step w) (th, st1) c →
  ∃ j,
    record_of c.2 id = Some j ∧
    errors j = results j ≫= error_entry ∧
    successful j = length (filter is_success (results j)) ∧
    failed j = length (filter is_error (results j)) ∧
    length (results j) = successful j + failed j ∧
    outcome_url <$> results j = take (length (results j)) batch.
Proof.
  intros Hc Hsteps.
  pose proof (worker_inv_init _ _ _ _ _ _ _ _ Hc) as Hinv.
  destruct (create_job_spec _ _ _ _ _ _ _ _ Hc) as (_ & -> & _ & _ & Hnew & _).
  destruct (results_agree_rtc w _ _ _ _ _ Hinv Hsteps) as (j & Hj & He & Hs & Hf & Hu).
  { eexists. split; [exact Hnew|]. by repeat split. }
  destruct (worker_run_effect w _ _ _ _ _ Hinv Hsteps)
    as (_ & _ & j0 & j' & Hj0 & Hj' & _ & Hurls & _).
  simpl in Hj0. rewrite Hnew in Hj0. injection Hj0 as <-.
  rewrite Hj in Hj'. injection Hj' as <-. simpl in Hurls.
  exists j. split.
  { unfold record_of. destruct (worker_inv_rtc w _ _ _ _ _ Hinv Hsteps) as [-> _].
    done. }
  split; [done|]. split; [done|]. split; [done|]. split.
  - rewrite Hs, Hf. by rewrite filter_success_error_length.
  - rewrite <- Hurls, Hu.
    rewrite take_app_length'; [done|]. by rewrite length_fmap.
Qed.

Lemma bookkeeping_agrees_with_results_witness :
  ∃ j,
    record_of (run_steps world_second_fails 5
                 (at_start "job_1700", sample_created)).2 "job_1700" = Some j ∧
    errors j = results j ≫= error_entry ∧
    length (results j) = successful j + failed j.
Proof.
  destruct (bookkeeping_agrees_with_results world_second_fails ["A"; "B"; "C"]
              true 1700 100 init "job_1700" sample_created
              (at_start "job_1700")
              (run_steps world_second_fails 5
                 (at_start "job_1700", sample_created))
              eq_refl (run_steps_rtc _ _ _))
    as (j & H1 & H2 & _ & _ & H3 & _).
  by exists j.
Defined.

(** ** Sweeping twice, and sweeping during a run *)

Lemma aged_out_mono max_age_hours max_age_hours' current_time current_time' j :
  (max_age_hours ≤ max_age_hours')%Z → (current_time' ≤ current_time)%Z →
  aged_out max_age_hours' current_time' j → aged_out max_age_hours current_time j.
Proof.
  intros Hm Ht (Hst & t & Hat & Hlt). split; [done|]. exists t. split; [done|].
  apply age_hours_gt. apply age_hours_gt in Hlt. lia.
Qed.

(** After a sweep the processor is still well formed, the table has lost
    entries only, and a second sweep at the same or an earlier time, with the
    same or a larger limit, finds nothing to remove and prints nothing. *)
Theorem cleanup_twice max_age_hours max_age_hours' current_time current_time'
    st st' out v :
  wf st →
  cleanup_old_jobs max_age_hours current_time st = Ok (st', out, v) →
  (max_age_hours ≤ max_age_hours')%Z → (current_time' ≤ current_time)%Z →
  wf st' ∧ jobs st' ⊆ jobs st ∧
  cleanup_old_jobs max_age_hours' current_time' st' = Ok (st', [], PyNone).
Proof.
  intros Hwf Hrun Hm Ht.
  destruct (cleanup_old_jobs_unfold max_age_hours current_time st Hwf)
    as (ks & Hrun' & _ & Hmem).
  rewrite Hrun' in Hrun. injection Hrun as <- _ _.
  assert (∀ id l, delete_all ks (jobs st) !! id = Some l →
                  jobs st !! id = Some l ∧ id ∉ ks) as Hsub.
  { intros id l. rewrite lookup_delete_all. by case_decide. }
  assert (wf {| heap := heap st; jobs := delete_all ks (jobs st) |}) as Hwf'.
  { intros id l Hid. simpl in Hid. apply Hsub in Hid as [Hid _].
    by apply (Hwf id). }
  split; [done|]. split.
  { apply map_subseteq_spec. intros id l Hid. by apply Hsub in Hid as [? _]. }
  destruct (cleanup_old_jobs_unfold max_age_hours' current_time' _ Hwf')
    as (ks' & Hrun2 & _ & Hmem').
  assert (ks' = []) as ->.
  { destruct ks' as [|k ks']; [done|]. exfalso.
    destruct (proj1 (Hmem' k)) as (l & j & Hk & Hj & Hold); [by left|].
    simpl in Hk. apply Hsub in Hk as [Hk Hnot]. apply Hnot, Hmem.
    exists l, j. split; [done|]. split; [done|].
    by apply (aged_out_mono _ max_age_hours' _ current_time'). }
  exact Hrun2.
Qed.

Lemma cleanup_twice_witness :
  ∃ st',
    cleanup_old_jobs 0 5000001 sample_finished
      = Ok (st', ["Cleaned up 1 old jobs"], PyNone) ∧
    cleanup_old_jobs 0 5000001 st' = Ok (st', [], PyNone).
Proof.
  eexists. split; [reflexivity|].
  eapply (cleanup_twice 0 0 5000001 5000001 sample_finished);
    [exact wf_sample_finished|reflexivity|done|done].
Defined.

(** A sweep that falls anywhere into the run of a job's worker, before the
    final bookkeeping, returns and leaves the job in the table and every
    object as it is, whatever the clock and the limit: the job is not
    completed yet.  The worker's next step is the one it would have taken
    without the sweep. *)
Theorem cleanup_spares_running_job (w : World) batch g time_ms now st
    id st1 th c max_age_hours current_time :
  wf st →
  create_job batch g time_ms now st = (id, st1, th) →
  rtc (step w) (th, st1) c →
  c.1 ≠ finished →
  ∃ st3 out l,
    cleanup_old_jobs max_age_hours current_time c.2 = Ok (st3, out, PyNone) ∧
    heap st3 = heap c.2 ∧
    get_job_status id c.2 = Some l ∧
    get_job_status id st3 = Some l ∧
    worker_step w (c.1, st3)
      = (λ c', (c'.1, {| heap := heap c'.2; jobs := jobs st3 |}))
          <$> worker_step w c.
Proof.
  intros Hwf Hc Hsteps Hpc. destruct c as [pc st2]. simpl in Hpc. simpl.
  pose proof (wf_create_job _ _ _ _ _ _ _ _ Hc Hwf) as Hwf1.
  pose proof (wf_rtc w _ _ Hsteps Hwf1) as Hwf2. simpl in Hwf2.
  pose proof (worker_inv_init _ _ _ _ _ _ _ _ Hc) as Hinv0.
  destruct (worker_inv_rtc w _ _ _ _ _ Hinv0 Hsteps) as [Hid (j & Hj & _ & Hinv)].
  simpl in Hid, Hj, Hinv.
  destruct (cleanup_old_jobs_unfold max_age_hours current_time st2 Hwf2)
    as (ks & Hrun & _ & Hmem).
  assert (status j ≠ Completed) as Hst.
  { destruct pc; try done; destruct Hinv as (_ & -> & _); done. }
  assert (id ∉ ks) as Hnot.
  { intros (l' & j' & Hid' & Hj' & Hc' & _)%Hmem.
    rewrite Hid in Hid'. injection Hid' as <-.
    rewrite Hj in Hj'. by injection Hj' as <-. }
  eexists _, _, _. split; [exact Hrun|]. split; [done|].
  split; [exact Hid|].
  assert (delete_all ks (jobs st2) !! id = Some (fresh (dom (heap st)))) as Hid3.
  { by rewrite lookup_delete_all, decide_False. }
  split; [exact Hid3|].
  unfold worker_step. simpl.
  destruct pc as [id'|l' g' idx [|url rest]|l' g' idx url rest|]; try done.
  destruct Hinv as (-> & _). rewrite Hid, Hid3. unfold deref. simpl.
  by destruct (heap st2 !! fresh (dom (heap st))).
Qed.

Lemma cleanup_spares_running_job_witness :
  ∃ st3 out l,
    cleanup_old_jobs 0 999999999
      (run_steps world_second_fails 4 (at_start "job_1700", sample_created)).2
      = Ok (st3, out, PyNone) ∧
    get_job_status "job_1700" st3 = Some l.
Proof.
  destruct (cleanup_spares_running_job world_second_fails ["A"; "B"; "C"] true
              1700 100 init "job_1700" sample_created (at_start "job_1700")
              (run_steps world_second_fails 4
                 (at_start "job_1700", sample_created))
              0 999999999 wf_init eq_refl (run_steps_rtc _ 4 _))
    as (st3 & out & l & H1 & _ & _ & H2 & _).
  { vm_compute. discriminate. }
  exists st3, out, l. split; [exact H1|exact H2].
Defined.

(** ** The name of the result file *)

Lemma string_forallb_map (P : ascii → bool) (f : ascii → ascii) s :
  (∀ c, P (f c) = true) → string_forallb P (string_map f s) = true.
Proof.
  intros Hf. induction s as [|c s IH]; simpl; [done|]. by rewrite Hf, IH.
Qed.

Lemma string_forallb_substring (P : ascii → bool) m : ∀ s,
  string_forallb P s = true → string_forallb P (String.substring 0 m s) = true.
Proof.
  induction m as [|m IH]; intros [|c s]; simpl; try done.
  intros [Hc Hs]%andb_prop. by rewrite Hc, IH.
Qed.

Lemma substring_length_le m : ∀ s, String.length (String.substring 0 m s) ≤ m.
Proof.
  induction m as [|m IH]; intros [|c s]; simpl; try lia.
  specialize (IH s). lia.
Qed.

(** Whatever the domain of the URL, the result is written to
    [diagnosis_<stem>.json] where the stem has at most 50 characters, all of
    them letters, digits, underscores or hyphens: no path separator, no dot
    and no colon gets into the file name. *)
Theorem diagnosis_filename_safe domain :
  ∃ stem,
    diagnosis_filename domain = "diagnosis_" +:+ stem +:+ ".json" ∧
    String.length stem ≤ 50 ∧
    string_forallb safe_char stem = true.
Proof.
  unfold diagnosis_filename. eexists. split; [reflexivity|].
  split; [apply substring_length_le|].
  apply string_forallb_substring, string_forallb_map.
  intros c. destruct (isalnum c || Ascii.eqb c "_" || Ascii.eqb c "-") eqn:E.
  - exact E.
  - reflexivity.
Qed.

(** ** The payload of a recorded success *)

(** When a diagnosis is recorded as a success, the payload stored in
    [results] is the one [diagnose_site] returned, with at most four keys
    written: every other key is as returned.  [saved] is always set, to [True]
    exactly when the write succeeded; and no observation is written when it
    was not asked for, when no vulnerability was detected, or when the
    generator raised or returned nothing. *)
Theorem recorded_payload e g idx url j payload domain :
  diagnose_site e = Ok payload →
  urlparse_domain e = Ok domain →
  os_makedirs e = Ok () →
  ∃ result,
    record_outcome e g idx url j = record_success url result idx j ∧
    (∀ key,
        key ≠ "technical_observation" → key ≠ "output_file" →
        key ≠ "saved" → key ≠ "save_error" →
        result !! key = payload !! key) ∧
    result !! "saved"
      = Some (PyBool match json_dump e with Ok _ => true | Raise _ => false end) ∧
    (g = false ∨
     truthy (dict_get_or_False payload "vulnerability_detected") = false ∨
     generate_technical_observation e = Ok None ∨
     generate_technical_observation e = Ok (Some "") ∨
     (∃ msg, generate_technical_observation e = Raise msg) →
     result !! "technical_observation" = payload !! "technical_observation").
Proof.
  intros Hd Hu Hm. eexists. split.
  { rewrite record_outcome_unfold.
    by rewrite (diagnose_url_ok _ _ _ _ Hd Hu Hm). }
  assert (∀ key, key ≠ "technical_observation" →
            add_observation e g payload !! key = payload !! key) as Hobs.
  { intros key Hk. unfold add_observation.
    destruct (g && truthy _); [|done].
    destruct (generate_technical_observation e) as [[text|]|msg]; simpl; try done.
    destruct (negb (String.eqb text "")); [|done]. by rewrite lookup_insert_ne. }
  unfold save_result. split; [|split].
  - intros key H1 H2 H3 H4.
    destruct (json_dump e); simpl; rewrite !lookup_insert_ne by done; by apply Hobs.
  - destruct (json_dump e); simpl.
    + by rewrite lookup_insert_eq.
    + by rewrite lookup_insert_ne, lookup_insert_eq.
  - intros Hno.
    assert (add_observation e g payload = payload) as ->.
    { unfold add_observation.
      destruct Hno as [->|[->|[->|[->|[msg ->]]]]]; simpl; try done.
      - by rewrite andb_false_r.
      - by destruct (g && _).
      - by destruct (g && _).
      - by destruct (g && _). }
    destruct (json_dump e); simpl; by rewrite !lookup_insert_ne.
Qed.

Lemma recorded_payload_witness :
  ∃ result,
    record_outcome env_ok true 1 "A" (new_job "job_1700" ["A"] true 100)
      = record_success "A" result 1 (new_job "job_1700" ["A"] true 100) ∧
    result !! "saved" = Some (PyBool true).
Proof.
  destruct (recorded_payload env_ok true 1 "A"
              (new_job "job_1700" ["A"] true 100) sample_payload
              "www.example.com" eq_refl eq_refl eq_refl)
    as (result & H1 & _ & H2 & _).
  exists result. split; [exact H1|exact H2].
Defined.

(** * Properties of csv_parser.py *)

(** ** Stripping *)

Lemma rstrip_cons_nonspace c s :
  isspace c = false → rstrip (String c s) = String c (rstrip s).
Proof. intros Hc. simpl. rewrite Hc. by destruct (rstrip s). Qed.

Lemma rstrip_idem s : rstrip (rstrip s) = rstrip s.
Proof.
  induction s as [|c s IH]; [done|]. simpl.
  destruct (rstrip s) as [|d r] eqn:Hr.
  - destruct (isspace c) eqn:Hc; [done|]. simpl. by rewrite Hc.
  - change (rstrip (String c (String d r))
            = String c (String d r)).
    simpl. simpl in IH. by rewrite IH.
Qed.

Lemma lstrip_starts s :
  lstrip s = "" ∨ ∃ c s', lstrip s = String c s' ∧ isspace c = false.
Proof.
  induction s as [|c s IH]; [by left|]. simpl.
  destruct (isspace c) eqn:Hc; [done|]. right. by exists c, s.
Qed.

Lemma strip_starts s :
  strip s = "" ∨ ∃ c s', strip s = String c s' ∧ isspace c = false.
Proof.
  unfold strip. destruct (lstrip_starts s) as [->|(c & s' & -> & Hc)]; [by left|].
  right. rewrite (rstrip_cons_nonspace _ _ Hc). by exists c, (rstrip s').
Qed.

Lemma lstrip_strip s : lstrip (strip s) = strip s.
Proof.
  destruct (strip_starts s) as [->|(c & s' & -> & Hc)]; [done|].
  simpl. by rewrite Hc.
Qed.

Lemma strip_idem s : strip (strip s) = strip s.
Proof.
  unfold strip at 1. rewrite lstrip_strip. unfold strip. apply rstrip_idem.
Qed.

Lemma rstrip_app_nonspace p s :
  string_forallb (λ c, negb (isspace c)) p = true →
  rstrip (p +:+ s) = p +:+ rstrip s.
Proof.
  induction p as [|c p IH]; [done|]. simpl.
  intros [Hc Hp]%andb_prop. apply negb_true_iff in Hc.
  change (rstrip (String c (p +:+ s)) = String c (p +:+ rstrip s)).
  by rewrite (rstrip_cons_nonspace _ _ Hc), IH.
Qed.

Lemma strip_https s : strip ("https://" +:+ strip s) = "https://" +:+ strip s.
Proof.
  unfold strip at 1.
  change (lstrip ("https://" +:+ strip s)) with ("https://" +:+ strip s).
  rewrite rstrip_app_nonspace by done.
  unfold strip. by rewrite rstrip_idem.
Qed.

Lemma has_scheme_https s : has_scheme ("https://" +:+ s) = true.
Proof. unfold has_scheme. simpl. by destruct s. Qed.

Lemma has_scheme_nonempty s : has_scheme s = true → s ≠ "".
Proof. by intros H ->. Qed.

(** ** normalize_url *)

Lemma normalize_url_nonempty url :
  url ≠ "" →
  has_scheme (normalize_url url) = true ∧
  strip (normalize_url url) = normalize_url url.
Proof.
  intros Hurl. unfold normalize_url.
  destruct (String.eqb_spec url "") as [|_]; [done|].
  destruct (has_scheme (strip url)) eqn:Hs; simpl.
  - split; [done|apply strip_idem].
  - split; [apply has_scheme_https|apply strip_https].
Qed.

(** [normalize_url] maps the empty string to itself and every other string
    to a string that starts with [http://] or [https://] and has no white
    space at its ends; applying it twice is applying it once. *)
Theorem normalize_url_normal url :
  normalize_url (normalize_url url) = normalize_url url ∧
  strip (normalize_url url) = normalize_url url ∧
  (url = "" → normalize_url url = "") ∧
  (url ≠ "" → has_scheme (normalize_url url) = true).
Proof.
  destruct (String.eqb_spec url "") as [->|Hurl]; [done|].
  destruct (normalize_url_nonempty url Hurl) as [Hs Hst].
  split; [|by split]. unfold normalize_url at 1.
  destruct (String.eqb_spec (normalize_url url) "") as [|_]; [done|].
  by rewrite Hst, Hs.
Qed.

Lemma normalize_url_normal_witness :
  " acme.example " ≠ "" ∧ has_scheme (normalize_url " acme.example ") = true.
Proof.
  split; [discriminate|].
  apply (normalize_url_normal " acme.example "). discriminate.
Defined.

(** ** find_url_column *)

Lemma first_url_header_spec hl : ∀ idx,
  match first_url_header idx hl with
  | Some i =>
      idx ≤ i ∧
      ∃ h, hl !! (i - idx) = Some h ∧ is_url_header h = true ∧
           ∀ k h', k < i - idx → hl !! k = Some h' → is_url_header h' = false
  | None => ∀ h, h ∈ hl → is_url_header h = false
  end.
Proof.
  induction hl as [|h hl IH]; intros idx; simpl.
  - by intros h ?%elem_of_nil.
  - destruct (is_url_header h) eqn:Hh.
    + split; [done|]. exists h. rewrite Nat.sub_diag. split; [done|].
      split; [done|]. intros k h' Hk. lia.
    + specialize (IH (S idx)).
      destruct (first_url_header (S idx) hl) as [i|].
      * destruct IH as (Hi & h0 & Hh0 & Hurl & Hbefore).
        split; [lia|]. exists h0.
        replace (i - idx) with (S (i - S idx)) by lia.
        split; [done|]. split; [done|].
        intros [|k] h' Hk Hk'; simplify_eq/=; [done|].
        apply (Hbefore k); [lia|done].
      * intros h' [->|Hin]%elem_of_cons; [done|by apply IH].
Qed.

Lemma find_url_column_lt (hs : list string) :
  hs ≠ [] → find_url_column hs < length hs.
Proof.
  intros Hne. unfold find_url_column.
  pose proof (first_url_header_spec ((λ h, lower (strip h)) <$> hs) 0) as H.
  destruct (first_url_header 0 ((λ h, lower (strip h)) <$> hs)) as [i|]; simpl.
  - destruct H as (_ & h0 & Hh0 & _). rewrite Nat.sub_0_r in Hh0.
    apply lookup_lt_Some in Hh0. by rewrite length_fmap in Hh0.
  - destruct hs; [done|simpl; lia].
Qed.

(** [find_url_column] returns the index of the first header that, stripped
    and in lower case, is one of the column names or contains one of the
    keywords; when no header does it returns 0, the first column, and not -1.
    On a non-empty header row the index returned is always that of a column. *)
Theorem find_url_column_first_match (hs : list string) :
  (hs ≠ [] → find_url_column hs < length hs) ∧
  ((∃ h, hs !! find_url_column hs = Some h ∧
         is_url_header (lower (strip h)) = true ∧
         ∀ k h', k < find_url_column hs → hs !! k = Some h' →
                 is_url_header (lower (strip h')) = false)
   ∨ (find_url_column hs = 0 ∧
      ∀ h, h ∈ hs → is_url_header (lower (strip h)) = false)).
Proof.
  unfold find_url_column.
  pose proof (first_url_header_spec ((λ h, lower (strip h)) <$> hs) 0) as H.
  destruct (first_url_header 0 ((λ h, lower (strip h)) <$> hs)) as [i|]; simpl.
  - destruct H as (_ & h0 & Hh0 & Hurl & Hbefore).
    rewrite Nat.sub_0_r in Hh0, Hbefore.
    rewrite list_lookup_fmap in Hh0.
    destruct (hs !! i) as [h|] eqn:Hi; [|done]. simpl in Hh0.
    injection Hh0 as <-. split.
    + intros _. by apply lookup_lt_Some in Hi.
    + left. exists h. split; [done|]. split; [done|].
      intros k h' Hk Hk'. apply (Hbefore k); [done|].
      by rewrite list_lookup_fmap, Hk'.
  - split.
    + intros Hne. destruct hs; [done|simpl; lia].
    + right. split; [done|]. intros h Hin. apply H.
      apply list_elem_of_fmap. by exists h.
Qed.

Lemma find_url_column_first_match_witness :
  ["Name"; " Company_URL "] ≠ [] ∧
  find_url_column ["Name"; " Company_URL "] < 2.
Proof.
  split; [discriminate|].
  apply (find_url_column_first_match ["Name"; " Company_URL "]). discriminate.
Defined.

(** Of the twenty column names only [web_address] contains none of the five
    keywords: a header, stripped and in lower case, is taken for the URL column
    exactly when it is [web_address] or contains [url], [website], [domain],
    [link] or [site]. *)
Theorem is_url_header_keywords (header : string) :
  is_url_header header = true ↔
  header = "web_address" ∨
  ∃ url_keyword, url_keyword ∈ URL_KEYWORDS ∧ contains url_keyword header = true.
Proof.
  unfold is_url_header. rewrite orb_true_iff. split.
  - intros [Hname|Hkw].
    + apply existsb_exists in Hname as (name & Hin & Heq).
      apply String.eqb_eq in Heq. subst name.
      apply list_elem_of_In in Hin.
      simpl in Hin.
      repeat (apply elem_of_cons in Hin as [->|Hin];
              [first [by left | right; vm_compute;
                      first [by exists "url"; split; [set_solver|]
                            |by exists "website"; split; [set_solver|]
                            |by exists "domain"; split; [set_solver|]
                            |by exists "link"; split; [set_solver|]
                            |by exists "site"; split; [set_solver|]]]|]).
      by apply elem_of_nil in Hin.
    + right. apply existsb_exists in Hkw as (kw & Hin & Hc).
      exists kw. split; [by apply list_elem_of_In|done].
  - intros [->|(kw & Hin & Hc)]; [by left|].
    right. apply existsb_exists. exists kw.
    split; [by apply list_elem_of_In|done].
Qed.

(** ** parse_csv_file and validate_csv_file *)

(** What the loop over the rows adds: one row number for each row, and at
    most one URL for each row, taken from the URL column. *)
Lemma read_rows_spec urlparse idx reader : ∀ urls0 n urls' n',
  read_rows urlparse idx reader urls0 n = Return (urls', n') →
  n' = n + length (rows_of reader) ∧
  ∃ new,
    urls' = urls0 ++ new ∧
    length new ≤ length (rows_of reader) ∧
    Forall (λ u, ∃ row cell,
                row ∈ rows_of reader ∧ row !! idx = Some cell ∧
                validate_url urlparse (strip cell) = true ∧
                u = normalize_url (strip cell) ∧
                has_scheme u = true) new.
Proof.
  induction reader as [row next IH| |e]; intros urls0 n urls' n' H; simpl in H.
  - assert (∀ us, read_rows urlparse idx next us (n + 1) = Return (urls', n') →
              us = urls0 →
              n' = n + length (rows_of (reader_row row next)) ∧
              ∃ new, urls' = urls0 ++ new ∧
                     length new ≤ length (rows_of (reader_row row next)) ∧
                     Forall (λ u, ∃ row0 cell,
                                 row0 ∈ rows_of (reader_row row next) ∧
                                 row0 !! idx = Some cell ∧
                                 validate_url urlparse (strip cell) = true ∧
                                 u = normalize_url (strip cell) ∧
                                 has_scheme u = true) new) as Hskip.
    { intros us Hus ->.
      destruct (IH _ _ _ _ Hus) as (-> & new & -> & Hlen & Hall).
      split; [simpl; lia|]. exists new. split; [done|]. split; [simpl; lia|].
      eapply Forall_impl; [exact Hall|].
      intros u (row0 & cell & Hin & Hcell & Hrest).
      exists row0, cell. split; [by right|done]. }
    destruct row as [|c0 row']; [by apply (Hskip urls0)|].
    destruct ((c0 :: row') !! idx) as [cell|] eqn:Hcell; [|by apply (Hskip urls0)].
    destruct (negb (String.eqb (strip cell) "")) eqn:Hne; simpl in H;
      [|by apply (Hskip urls0)].
    destruct (validate_url urlparse (strip cell)) eqn:Hv; [|by apply (Hskip urls0)].
    destruct (IH _ _ _ _ H) as (-> & new & -> & Hlen & Hall).
    split; [simpl; lia|].
    exists (normalize_url (strip cell) :: new).
    split; [by rewrite <- app_assoc|]. split; [simpl; lia|].
    constructor.
    + exists (c0 :: row'), cell. split; [by left|]. split; [done|].
      split; [done|]. split; [done|].
      apply normalize_url_nonempty. apply negb_true_iff in Hne.
      by apply String.eqb_neq in Hne.
    + eapply Forall_impl; [exact Hall|].
      intros u (row0 & cell0 & Hin & Hcell0 & Hrest).
      exists row0, cell0. split; [by right|done].
  - injection H as <- <-. split; [simpl; lia|]. exists [].
    split; [by rewrite app_nil_r|]. by split.
  - done.
Qed.

(** When [validate_csv_file] succeeds, the message is empty and the list of
    URLs is not: it has one URL for the rows whose cell in the URL column,
    stripped, is not empty and passes [validate_url], and each URL is that
    cell normalised, so it starts with [http://] or [https://].  The metadata
    carry the file name given, the header row, as URL column the one
    [find_url_column] chose, which is a column of the header row (never
    ['Unknown']), the number of data rows read, empty ones included, and the
    number of URLs, which is at most the number of rows. *)
Theorem validate_csv_file_success urlparse reader name msg data :
  validate_csv_file urlparse reader name = (true, msg, data) →
  msg = "" ∧
  ∃ hs rows batch md,
    reader = reader_row hs rows ∧ hs ≠ [] ∧
    data = Some (batch, md) ∧
    batch ≠ [] ∧
    filename md = name ∧
    headers md = hs ∧
    url_column_index md = find_url_column hs ∧
    hs !! url_column_index md = Some (url_column md) ∧
    total_rows md = length (rows_of rows) ∧
    url_count md = length batch ∧
    url_count md ≤ total_rows md ∧
    Forall (λ u, ∃ row cell,
                row ∈ rows_of rows ∧
                row !! find_url_column hs = Some cell ∧
                validate_url urlparse (strip cell) = true ∧
                u = normalize_url (strip cell) ∧
                has_scheme u = true) batch.
Proof.
  unfold validate_csv_file, parse_csv_file, parse_csv_body.
  destruct reader as [hs rows| |e].
  - destruct hs as [|h0 hs']; [done|].
    destruct (read_rows urlparse (find_url_column (h0 :: hs')) rows [] 1)
      as [[batch n]|e] eqn:Hread.
    + destruct batch as [|u batch']; [done|].
      intros [= <- <-]. split; [done|].
      destruct (read_rows_spec _ _ _ _ _ _ _ Hread) as (-> & new & Hnew & Hlen & Hall).
      simpl in Hnew. subst new.
      pose proof (find_url_column_lt (h0 :: hs') ltac:(done)) as Hlt.
      destruct ((h0 :: hs') !! find_url_column (h0 :: hs')) as [col|] eqn:Hcol.
      2:{ apply lookup_ge_None in Hcol. lia. }
      eexists (h0 :: hs'), rows, (u :: batch'), _.
      split; [done|]. split; [done|]. split; [reflexivity|].
      simpl. rewrite Hcol. simpl in Hlen.
      repeat split; try done; lia.
    + by destruct e.
  - done.
  - by destruct e.
Qed.

Lemma validate_csv_file_success_witness :
  validate_csv_file sample_urlparse sample_reader "leads.csv"
    = (true, "",
       Some (["https://acme.example"; "http://initech.example"],
             mkMetadata "leads.csv" 4 2 ["Name"; " Company_URL "]
               " Company_URL " 1)) ∧
  ("" : string) = "".
Proof.
  split; [reflexivity|].
  apply (validate_csv_file_success sample_urlparse sample_reader "leads.csv" ""
           (Some (["https://acme.example"; "http://initech.example"],
                  mkMetadata "leads.csv" 4 2 ["Name"; " Company_URL "]
                    " Company_URL " 1))).
  reflexivity.
Defined.

(** [parse_csv_file] lets only [ValueError] out, so [validate_csv_file] never
    answers ["Unexpected error: ..."]: a failure comes with no data and a
    message that starts with ["Invalid CSV format: "], for an error of the
    [csv] module, or with ["Error parsing CSV file: "], for anything else.
    The function's own three errors are of the second kind: they are raised
    inside the [try] and wrapped by its last handler. *)
Theorem validate_csv_file_failure urlparse name :
  (∀ reader msg data,
      validate_csv_file urlparse reader name = (false, msg, data) →
      data = None ∧
      ∃ detail, msg = "Invalid CSV format: " +:+ detail ∨
                msg = "Error parsing CSV file: " +:+ detail) ∧
  validate_csv_file urlparse reader_end name
    = (false, "Error parsing CSV file: CSV file is empty", None) ∧
  (∀ rows,
      validate_csv_file urlparse (reader_row [] rows) name
      = (false, "Error parsing CSV file: CSV file has no headers", None)) ∧
  (∀ hs rows n,
      hs ≠ [] →
      read_rows urlparse (find_url_column hs) rows [] 1 = Return ([], n) →
      validate_csv_file urlparse (reader_row hs rows) name
      = (false, "Error parsing CSV file: No valid URLs found in CSV file",
         None)) ∧
  (∀ detail,
      validate_csv_file urlparse (reader_raise (csv_Error detail)) name
      = (false, "Invalid CSV format: " +:+ detail, None)).
Proof.
  split; [|split; [done|split; [done|split; [|done]]]].
  - intros reader msg data. unfold validate_csv_file, parse_csv_file.
    destruct (parse_csv_body urlparse reader) as [[batch md]|[m|m|m]];
      intros [= <- <-]; (split; [done|]); eexists; eauto.
  - intros hs rows n Hhs Hread. unfold validate_csv_file, parse_csv_file.
    simpl. destruct hs; [done|]. by rewrite Hread.
Qed.

Lemma validate_csv_file_failure_witness :
  validate_csv_file sample_urlparse
    (reader_row ["Name"] (reader_row ["  "] reader_end)) "leads.csv"
  = (false, "Error parsing CSV file: No valid URLs found in CSV file", None).
Proof.
  apply (validate_csv_file_failure sample_urlparse "leads.csv") with (n := 2);
    [discriminate|reflexivity].
Defined.

Lemma validate_csv_file_batch urlparse reader name msg batch md :
  validate_csv_file urlparse reader name = (true, msg, Some (batch, md)) →
  batch ≠ [] ∧ url_count md = length batch ∧
  Forall (λ u, has_scheme u = true) batch.
Proof.
  unfold validate_csv_file, parse_csv_file, parse_csv_body.
  destruct reader as [hs rows| |e]; [|done|by destruct e].
  destruct hs as [|h0 hs']; [done|].
  destruct (read_rows urlparse (find_url_column (h0 :: hs')) rows [] 1)
    as [[us n]|e] eqn:Hread; [|by destruct e].
  destruct us as [|u us']; [done|].
  intros [= <- <- <-]. split; [done|]. split; [done|].
  destruct (read_rows_spec _ _ _ _ _ _ _ Hread) as (_ & new & Hnew & _ & Hall).
  simpl in Hnew. subst new.
  eapply Forall_impl; [exact Hall|]. by intros u0 (_ & _ & _ & _ & _ & _ & ?).
Qed.

(** A batch taken from a successful [validate_csv_file] and handed to
    [create_job] is never the empty batch: the job registered has
    [total = url_count ≥ 1], and each of its URLs starts with [http://] or
    [https://]. *)
Theorem csv_batch_is_not_empty urlparse reader name msg batch md
    g time_ms now st id st1 th :
  validate_csv_file urlparse reader name = (true, msg, Some (batch, md)) →
  create_job batch g time_ms now st = (id, st1, th) →
  ∃ j,
    record_of st1 id = Some j ∧
    urls j = batch ∧
    total j = url_count md ∧
    1 ≤ total j ∧
    Forall (λ u, has_scheme u = true) (urls j).
Proof.
  intros Hcsv Hc.
  destruct (validate_csv_file_batch _ _ _ _ _ _ Hcsv) as (Hne & Hcount & Hall).
  destruct (create_job_spec _ _ _ _ _ _ _ _ Hc) as (_ & _ & _ & Hjobs & Hnew & _).
  exists (new_job id batch g now). split.
  { unfold record_of. by rewrite Hjobs, lookup_insert_eq. }
  simpl. split; [done|]. split; [done|]. split; [|done].
  destruct batch; [done|simpl; lia].
Qed.

Lemma csv_batch_is_not_empty_witness :
  ∃ j,
    record_of
      (create_job ["https://acme.example"; "http://initech.example"] false
         1700 100 init).1.2 "job_1700" = Some j ∧
    1 ≤ total j.
Proof.
  destruct (csv_batch_is_not_empty sample_urlparse sample_reader "leads.csv" ""
              ["https://acme.example"; "http://initech.example"]
              (mkMetadata "leads.csv" 4 2 ["Name"; " Company_URL "]
                 " Company_URL " 1)
              false 1700 100 init "job_1700"
              (create_job ["https://acme.example"; "http://initech.example"]
                 false 1700 100 init).1.2
              (at_start "job_1700") eq_refl eq_refl)
    as (j & H1 & _ & _ & H2 & _).
  exists j. split; [exact H1|exact H2].
Defined.

(** ** validate_url *)

(** [validate_url] never raises; a string that is empty or all white space is
    not a URL; white space around a URL does not count; and the URL tested is
    the URL [normalize_url] makes, so that a cell accepted by [validate_url]
    is still accepted once normalised. *)
Theorem validate_url_normalize (urlparse : string → res (string * string)) url :
  (strip url = "" → validate_url urlparse url = false) ∧
  validate_url urlparse (strip url) = validate_url urlparse url ∧
  (strip url ≠ "" →
   validate_url urlparse (normalize_url url) = validate_url urlparse url).
Proof.
  assert (∀ u, strip u ≠ "" → u ≠ "") as Hne by (by intros u H ->).
  assert (∀ u, strip u ≠ "" →
            validate_url urlparse u =
            match urlparse (if negb (has_scheme (strip u))
                            then "https://" +:+ strip u else strip u) with
            | Ok (netloc, path) =>
                negb (String.eqb netloc "") || negb (String.eqb path "")
            | Raise _ => false
            end) as Hunfold.
  { intros u Hu. unfold validate_url.
    destruct (String.eqb_spec u "") as [->|_]; [done|].
    by destruct (String.eqb_spec (strip u) "") as [|_]. }
  split; [|split].
  - intros Hs. unfold validate_url.
    destruct (String.eqb_spec url "") as [|_]; [done|]. by rewrite Hs.
  - destruct (String.eqb_spec (strip url) "") as [Hs|Hs].
    + rewrite Hs. unfold validate_url at 2.
      destruct (String.eqb_spec url "") as [|_]; [done|]. by rewrite Hs.
    + rewrite (Hunfold url Hs), (Hunfold (strip url)); rewrite strip_idem; done.
  - intros Hs. rewrite (Hunfold url Hs).
    destruct (normalize_url_nonempty url (Hne _ Hs)) as [Hscheme Hstrip].
    rewrite Hunfold; rewrite Hstrip; [|by apply has_scheme_nonempty].
    rewrite Hscheme. simpl. unfold normalize_url.
    destruct (String.eqb_spec url "") as [->|_]; [done|]. done.
Qed.

Lemma validate_url_normalize_witness :
  strip " acme.example " ≠ "" ∧
  validate_url sample_urlparse (normalize_url " acme.example ")
  = validate_url sample_urlparse " acme.example ".
Proof.
  split; [discriminate|].
  apply (validate_url_normalize sample_urlparse " acme.example "). discriminate.
Defined.

(** * Properties of diagnose_website.py *)

(** ** diagnose_multiple_sites *)

Lemma diagnose_sites_from_app sites g pre : ∀ idx acc rest,
  diagnose_sites_from sites g idx (pre ++ rest) acc =
  acc' ← diagnose_sites_from sites g idx pre acc;
  diagnose_sites_from sites g (idx + length pre) rest acc'.
Proof.
  induction pre as [|url pre IH]; intros idx acc rest; simpl.
  - by rewrite Nat.add_0_r.
  - destruct (diagnose_site (sites idx (with_scheme url))) as [r|m]; simpl; [|done].
    destruct (if g && truthy (dict_get_or_False r "vulnerability_detected")
              then _ else _) as [r'|m]; simpl; [|done].
    rewrite IH. by replace (S idx + length pre) with (idx + S (length pre)) by lia.
Qed.

Lemma diagnose_sites_from_length sites g batch : ∀ idx acc results,
  diagnose_sites_from sites g idx batch acc = Ok results →
  length results = length acc + length batch.
Proof.
  induction batch as [|url batch IH]; intros idx acc results; simpl.
  - intros [= <-]. lia.
  - destruct (diagnose_site (sites idx (with_scheme url))) as [r|m]; simpl; [|done].
    destruct (if g && truthy (dict_get_or_False r "vulnerability_detected")
              then _ else _) as [r'|m]; simpl; [|done].
    intros H. rewrite (IH _ _ _ H), length_app. simpl. lia.
Qed.

(** [diagnose_multiple_sites] has no handler: when it returns, it returns one
    result for each URL; but as soon as [diagnose_site] raises for one URL, or
    the observation generator raises for a result with a vulnerability, the
    call raises that exception and the results of the URLs before are lost,
    where the worker of [BulkProcessor] records an error and goes on. *)
Theorem diagnose_multiple_sites_stops_at_first_failure
    (sites : nat → string → Env) (g : bool) :
  (∀ batch results,
      diagnose_multiple_sites sites batch g = Ok results →
      length results = length batch) ∧
  (∀ pre url post results msg,
      diagnose_multiple_sites sites pre g = Ok results →
      diagnose_site (sites (S (length pre)) (with_scheme url)) = Raise msg →
      diagnose_multiple_sites sites (pre ++ url :: post) g = Raise msg) ∧
  (∀ pre url post results payload msg,
      diagnose_multiple_sites sites pre g = Ok results →
      diagnose_site (sites (S (length pre)) (with_scheme url)) = Ok payload →
      g = true →
      truthy (dict_get_or_False payload "vulnerability_detected") = true →
      generate_technical_observation (sites (S (length pre)) (with_scheme url))
        = Raise msg →
      diagnose_multiple_sites sites (pre ++ url :: post) g = Raise msg).
Proof.
  unfold diagnose_multiple_sites. split; [|split].
  - intros batch results H. by rewrite (diagnose_sites_from_length _ _ _ _ _ _ H).
  - intros pre url post results msg Hpre Hfail.
    rewrite diagnose_sites_from_app, Hpre. simpl. by rewrite Hfail.
  - intros pre url post results payload msg Hpre Hok -> Hv Hgen.
    rewrite diagnose_sites_from_app, Hpre. simpl.
    by rewrite Hok; simpl; rewrite Hv; simpl; rewrite Hgen.
Qed.

Lemma diagnose_multiple_sites_stops_at_first_failure_witness :
  diagnose_multiple_sites sample_sites (["a.example"] ++ "b.example" :: ["c.example"])
    true = Raise "net::ERR_NAME_NOT_RESOLVED".
Proof.
  destruct (diagnose_multiple_sites_stops_at_first_failure sample_sites true)
    as (_ & Hfail & _).
  eapply (Hfail ["a.example"] "b.example" ["c.example"]); reflexivity.
Defined.

(** ** format_tech_name *)

Lemma prefix_app_weaken a b : ∀ s,
  String.prefix (a +:+ b) s = true → String.prefix a s = true.
Proof.
  induction a as [|c a IH]; intros s; [by destruct s|].
  change (String c a +:+ b) with (String c (a +:+ b)).
  destruct s as [|d s]; [done|]. simpl.
  destruct (Ascii.ascii_dec c d); [apply IH|done].
Qed.

Lemma contains_app_weaken a b : ∀ s,
  contains (a +:+ b) s = true → contains a s = true.
Proof.
  induction s as [|d s IH].
  - intros H. change (contains a "") with (String.prefix a "" || false).
    change (contains (a +:+ b) "")
      with (String.prefix (a +:+ b) "" || false) in H.
    rewrite orb_false_r in H. by rewrite (prefix_app_weaken _ _ _ H).
  - intros H. change (contains a (String d s))
      with (String.prefix a (String d s) || contains a s).
    change (contains (a +:+ b) (String d s))
      with (String.prefix (a +:+ b) (String d s) || contains (a +:+ b) s) in H.
    apply orb_true_iff in H as [H|H].
    + by rewrite (prefix_app_weaken _ _ _ H).
    + rewrite (IH H). apply orb_true_r.
Qed.

(** With a vulnerability in the list, the technology is named after the first
    vulnerability alone, by the first key of [tech_map] its type contains, the
    detected technologies playing no part.  The key [jquery_ui] stands after
    [jquery], which every type that contains it contains as well: the name is
    never ["jQuery UI"], and a type with [jquery_ui] in it is named AngularJS,
    Angular or jQuery. *)
Theorem format_tech_name_vulnerability v vs detected :
  ∃ name,
    format_tech_name (v :: vs) detected
      = (if negb (String.eqb (default "unknown" (vuln_version v)) "unknown")
         then name +:+ " " +:+ default "unknown" (vuln_version v)
         else name) ∧
    name = first_key_in (lower (default "" (vuln_type v))) tech_map ∧
    name ≠ "jQuery UI" ∧
    (contains "jquery_ui" (lower (default "" (vuln_type v))) = true →
     name = "AngularJS" ∨ name = "Angular" ∨ name = "jQuery").
Proof.
  eexists. split; [reflexivity|]. split; [reflexivity|].
  set (t := lower (default "" (vuln_type v))).
  assert (contains "jquery_ui" t = true → contains "jquery" t = true) as Hsub.
  { apply (contains_app_weaken "jquery" "_ui"). }
  unfold tech_map, first_key_in.
  destruct (contains "angularjs" t); [split; [done|by left]|].
  destruct (contains "angular" t); [split; [done|by right; left]|].
  destruct (contains "jquery" t) eqn:Hjq; [split; [done|by right; right]|].
  assert (contains "jquery_ui" t = false) as Hui.
  { destruct (contains "jquery_ui" t); [|done]. by specialize (Hsub eq_refl). }
  split; [|by rewrite Hui].
  rewrite Hui.
  repeat match goal with
         | |- (if contains ?k t then _ else _) ≠ _ =>
             destruct (contains k t); [discriminate|]
         end.
  discriminate.
Qed.

Lemma format_tech_name_vulnerability_witness :
  contains "jquery_ui" (lower "jquery_ui_old") = true ∧
  format_tech_name [mkVulnerability (Some "jquery_ui_old") (Some "1.11.4")] None
  = "jQuery 1.11.4".
Proof.
  split; [reflexivity|].
  destruct (format_tech_name_vulnerability
              (mkVulnerability (Some "jquery_ui_old") (Some "1.11.4")) [] None)
    as (name & Heq & Hname & _ & _).
  rewrite Heq, Hname. reflexivity.
Defined.



